(** * FlowBuilder: the run-mode traversal of [src/index.tsx]

    The [Viewer] component of [src/index.tsx] walks a flow graph one step at a
    time.  Its React state is the triple [history], [currentNodeId],
    [selections]; its event handlers are [handleBack], [handleContinue] and
    [toggleSelection].  This file embeds that component as pure functions over
    an explicit [ViewerState] and proves the traversal properties of the
    specification about them.

    JavaScript values are modelled as the handlers use them: arrays are lists
    (push at the end, [pop] from the end), identifiers are strings, an optional
    field is an [option], an edge's [sourceHandle] is a string, [null] or
    [undefined], and the numbers returned by comparators are integers. *)

From Stdlib Require Import List String Ascii ZArith Bool Lia.
From Stdlib Require Import Sorted Permutation OrderedTypeEx.
From Stdlib Require Import DecimalString.
Import ListNotations.

Local Open Scope string_scope.
Local Open Scope list_scope.

(** ** JavaScript helpers used by the component *)

Module JS.

(** A value of type [string | null | undefined]. *)
Inductive Nullable : Type :=
| undefined
| null
| str (s : string).

(** [a === b] on such values. *)
Definition strictEq (a b : Nullable) : bool :=
  match a, b with
  | undefined, undefined => true
  | null, null => true
  | str s, str t => String.eqb s t
  | _, _ => false
  end.

(** Truthiness of a string: only the empty string is falsy. *)
Definition truthy (s : string) : bool :=
  match s with
  | EmptyString => false
  | String _ _ => true
  end.

(** Truthiness of an optional boolean field. *)
Definition truthyFlag (b : option bool) : bool :=
  match b with
  | Some true => true
  | _ => false
  end.

(** [arr[0]]. *)
Definition first (arr : list string) : Nullable :=
  match arr with
  | [] => undefined
  | s :: _ => str s
  end.

(** [arr.includes(x)] on an array of strings. *)
Definition includes (arr : list string) (x : string) : bool :=
  existsb (String.eqb x) arr.

(** [arr.every(f)]. *)
Definition every {A : Type} (f : A -> bool) (arr : list A) : bool :=
  forallb f arr.

(** [arr.pop()]: the last element (or nothing) and the shortened array. *)
Fixpoint pop {A : Type} (arr : list A) : option A * list A :=
  match arr with
  | [] => (None, [])
  | [x] => (Some x, [])
  | x :: rest => let '(r, rest') := pop rest in (r, x :: rest')
  end.

(** [Array.prototype.sort(cmp)].  For a consistent comparator ECMAScript
    fixes the result: the stable sorted permutation of the array.  It is
    computed here by a stable insertion sort; [cmp x y <= 0] keeps [x], which
    stood before [y], in front of it. *)
Fixpoint insert {A : Type} (cmp : A -> A -> Z) (x : A) (sorted : list A) : list A :=
  match sorted with
  | [] => [x]
  | y :: rest =>
      if (cmp x y <=? 0)%Z then x :: y :: rest else y :: insert cmp x rest
  end.

Fixpoint sort {A : Type} (cmp : A -> A -> Z) (arr : list A) : list A :=
  match arr with
  | [] => []
  | x :: rest => insert cmp x (sort cmp rest)
  end.

(** [cmp] does not put [b] in front of [a]. *)
Definition before {A : Type} (cmp : A -> A -> Z) (a b : A) : Prop :=
  (cmp a b <= 0)%Z.

(** The contract a comparator has to meet for [sort] to be defined: the
    relation [cmp a b <= 0] is a total preorder. *)
Record Consistent {A : Type} (cmp : A -> A -> Z) : Prop := {
  cmp_antisym : forall a b, (cmp a b < 0 <-> 0 < cmp b a)%Z;
  cmp_trans : forall a b c, (cmp a b <= 0 -> cmp b c <= 0 -> cmp a c <= 0)%Z
}.

End JS.

(** ** Types (lines 86-111) *)

Inductive NodeType : Type := radio | checkbox | static | end_.

Definition NodeType_eqb (a b : NodeType) : bool :=
  match a, b with
  | radio, radio | checkbox, checkbox | static, static | end_, end_ => true
  | _, _ => false
  end.

Module Option.
Record t : Type := mk { id : string; label : string }.
End Option.

Module LogicPath.
Record t : Type := mk {
  id : string;
  label : string;
  requiredOptionIds : list string
}.
End LogicPath.

Module NodeData.
Record t : Type := mk {
  label : string;
  content : string;
  type : NodeType;
  options : option (list Option.t);
  paths : option (list LogicPath.t);
  canRestart : option bool
}.
End NodeData.

Module AppNode.
Record t : Type := mk { id : string; data : NodeData.t }.
End AppNode.

(** The fields of a React Flow [Edge] that the component reads. *)
Module Edge.
Record t : Type := mk {
  id : string;
  source : string;
  target : string;
  sourceHandle : JS.Nullable
}.
End Edge.

(** ** The state of [Viewer] (lines 456-458) *)

Record ViewerState : Type := mkState {
  history : list string;
  currentNodeId : string;
  selections : list string
}.

Definition setHistory (h : list string) (st : ViewerState) : ViewerState :=
  mkState h (currentNodeId st) (selections st).

Definition setCurrentNodeId (n : string) (st : ViewerState) : ViewerState :=
  mkState (history st) n (selections st).

Definition setSelections (s : list string) (st : ViewerState) : ViewerState :=
  mkState (history st) (currentNodeId st) s.

(** The three [useState] initial values. *)
Definition initialState : ViewerState := mkState [] "start" [].

(** How a handler ended: it committed a forward move, it committed a restart,
    it raised an [alert], or it returned having called nothing. *)
Inductive Outcome : Type :=
| Moved
| Restarted
| Alerted (message : string)
| Returned.

Definition noPathMessage : string := "No valid path defined for this selection.".
Definition missingNodeMessage : string := "Configuration Error: The next node is missing.".

(** An advance fails when it commits neither a move nor a restart. *)
Definition failed (o : Outcome) : bool :=
  match o with
  | Moved | Restarted => false
  | Alerted _ | Returned => true
  end.

(** ** The component *)

(** [nodes.find(n => n.id === currentNodeId)] (line 460). *)
Definition findNode (nodes : list AppNode.t) (nodeId : string) : option AppNode.t :=
  find (fun n => String.eqb (AppNode.id n) nodeId) nodes.

Definition currentNode (nodes : list AppNode.t) (st : ViewerState) : option AppNode.t :=
  findNode nodes (currentNodeId st).

(** [handleBack] (lines 479-488). *)
Definition handleBack (st : ViewerState) : ViewerState :=
  if Nat.eqb (List.length (history st)) 0 then st
  else
    let '(prevId, newHistory) := JS.pop (history st) in
    let st1 := setHistory newHistory st in
    match prevId with
    | Some p =>
        if JS.truthy p then setSelections [] (setCurrentNodeId p st1) else st1
    | None => st1
    end.

(** [toggleSelection] (lines 551-559). *)
Definition toggleSelection (optId : string) (isRadio : bool) (st : ViewerState)
  : ViewerState :=
  if isRadio then setSelections [optId] st
  else
    let prev := selections st in
    setSelections
      (if JS.includes prev optId
       then filter (fun i => negb (String.eqb i optId)) prev
       else prev ++ [optId])
      st.

(** The size of the set of ids that an array holds: the number of its distinct
    elements.  It is the array's length when no id is repeated, which is how
    the editor builds [requiredOptionIds] (lines 407-412). *)
Definition cardinality (ids : list string) : nat :=
  List.length (nodup string_dec ids).

Section Handlers.

(** [String.prototype.localeCompare] belongs to the host, not to the
    repository: it is a parameter of the development. *)
Variable localeCompare : string -> string -> Z.

(** The comparator handed to [sort] (lines 515-519). *)
Definition comparePaths (a b : LogicPath.t) : Z :=
  let lenDiff :=
    (Z.of_nat (List.length (LogicPath.requiredOptionIds b))
     - Z.of_nat (List.length (LogicPath.requiredOptionIds a)))%Z in
  if negb (lenDiff =? 0)%Z then lenDiff
  else localeCompare (LogicPath.label a) (LogicPath.label b).

Definition sortedPaths (paths : list LogicPath.t) : list LogicPath.t :=
  JS.sort comparePaths paths.

(** The predicate of [sortedPaths.find] (line 528). *)
Definition pathMatches (sel : list string) (path : LogicPath.t) : bool :=
  JS.every (fun req => JS.includes sel req) (LogicPath.requiredOptionIds path).

(** [matchedPath] (lines 521-529). *)
Definition matchedPath (paths : list LogicPath.t) (sel : list string)
  : option LogicPath.t :=
  find (pathMatches sel) (sortedPaths paths).

(** [currentNode.data.paths || []] (line 513). *)
Definition pathsOrEmpty (d : NodeData.t) : list LogicPath.t :=
  match NodeData.paths d with
  | Some ps => ps
  | None => []
  end.

(** The test of the two handle-specific [edges.find] calls (lines 510, 532):
    [e.source === nodeId && e.sourceHandle === handle]. *)
Definition leaves (nodeId : string) (handle : JS.Nullable) (e : Edge.t) : bool :=
  String.eqb (Edge.source e) nodeId && JS.strictEq (Edge.sourceHandle e) handle.

(** [nextEdge] as lines 502-534 compute it. *)
Definition nextEdge (edges : list Edge.t) (st : ViewerState) (node : AppNode.t)
  : option Edge.t :=
  match NodeData.type (AppNode.data node) with
  | static =>
      find (fun e => String.eqb (Edge.source e) (currentNodeId st)) edges
  | radio =>
      let selectedOptionId := JS.first (selections st) in
      find (leaves (currentNodeId st) selectedOptionId) edges
  | checkbox =>
      let paths := pathsOrEmpty (AppNode.data node) in
      match matchedPath paths (selections st) with
      | Some path => find (leaves (currentNodeId st) (JS.str (LogicPath.id path))) edges
      | None => None
      end
  | end_ => None
  end.

(** The commit of lines 536-548. *)
Definition followEdge (nodes : list AppNode.t) (st : ViewerState)
  (next : option Edge.t) : Outcome * ViewerState :=
  match next with
  | Some e =>
      match findNode nodes (Edge.target e) with
      | Some _ =>
          (Moved,
           setSelections []
             (setCurrentNodeId (Edge.target e)
                (setHistory (history st ++ [currentNodeId st]) st)))
      | None => (Alerted missingNodeMessage, st)
      end
  | None => (Alerted noPathMessage, st)
  end.

(** [handleContinue] (lines 490-549). *)
Definition handleContinue (nodes : list AppNode.t) (edges : list Edge.t)
  (st : ViewerState) : Outcome * ViewerState :=
  match currentNode nodes st with
  | None => (Returned, st)
  | Some node =>
      if NodeType_eqb (NodeData.type (AppNode.data node)) end_ then
        if JS.truthyFlag (NodeData.canRestart (AppNode.data node)) then
          (Restarted,
           setSelections [] (setCurrentNodeId "start" (setHistory [] st)))
        else (Returned, st)
      else followEdge nodes st (nextEdge edges st node)
  end.

(** Whether the Continue (or Restart) control can be pressed
    (lines 647-664). *)
Definition canAdvance (node : AppNode.t) (st : ViewerState) : bool :=
  if negb (NodeType_eqb (NodeData.type (AppNode.data node)) end_) then
    negb (negb (NodeType_eqb (NodeData.type (AppNode.data node)) static)
          && Nat.eqb (List.length (selections st)) 0)
  else JS.truthyFlag (NodeData.canRestart (AppNode.data node)).

(** A press of the control: a disabled or absent button fires nothing. *)
Definition pressContinue (nodes : list AppNode.t) (edges : list Edge.t)
  (st : ViewerState) : Outcome * ViewerState :=
  match currentNode nodes st with
  | None => (Returned, st)
  | Some node =>
      if canAdvance node st then handleContinue nodes edges st
      else (Returned, st)
  end.

End Handlers.

(** What [Viewer] renders (lines 561-685): the "Node not found" element, or the
    wizard for the current node with its Back control shown or hidden. *)
Inductive Rendered : Type :=
| NodeNotFound
| Wizard (node : AppNode.t) (backShown : bool).

Definition Viewer (nodes : list AppNode.t) (st : ViewerState) : Rendered :=
  match currentNode nodes st with
  | None => NodeNotFound
  | Some node => Wizard node (negb (Nat.eqb (List.length (history st)) 0))
  end.

(** ** Concrete data used to run the component

    A comparator to run [handleContinue] with: the order of the strings'
    bytes.  (The host's [localeCompare] is some other consistent order.) *)
Definition byteCompare (a b : string) : Z :=
  match String.compare a b with
  | Lt => (-1)%Z
  | Eq => 0%Z
  | Gt => 1%Z
  end.

Definition mkNode (nodeId : string) (ty : NodeType) (opts : option (list Option.t))
  (ps : option (list LogicPath.t)) (restart : option bool) : AppNode.t :=
  AppNode.mk nodeId (NodeData.mk nodeId "" ty opts ps restart).

Definition staticNode (nodeId : string) : AppNode.t :=
  mkNode nodeId static None None None.

Definition mkEdge (src : string) (handle : JS.Nullable) (tgt : string) : Edge.t :=
  Edge.mk (src ++ "->" ++ tgt) src tgt handle.

(** The single-choice scenario: [Q] with choices [A], [B];
    [Q--A-->X], [Q--B-->Y]. *)
Definition stepQ : AppNode.t :=
  mkNode "Q" radio (Some [Option.mk "A" "a"; Option.mk "B" "b"]) None None.

Definition scenarioQ_nodes : list AppNode.t :=
  [ stepQ; staticNode "X"; staticNode "Y" ].

Definition scenarioQ_edges : list Edge.t :=
  [ mkEdge "Q" (JS.str "A") "X"; mkEdge "Q" (JS.str "B") "Y" ].

(** The multi-choice scenario: [M] with choices [A], [B], [C] and the paths
    [P1] requiring [A] to [X], [P2] requiring [A] and [B] to [Y], [P3]
    requiring nothing to [Z]. *)
Definition P1 : LogicPath.t := LogicPath.mk "P1" "one" ["A"].
Definition P2 : LogicPath.t := LogicPath.mk "P2" "two" ["A"; "B"].
Definition P3 : LogicPath.t := LogicPath.mk "P3" "else" [].

Definition stepM : AppNode.t :=
  mkNode "M" checkbox
    (Some [Option.mk "A" "a"; Option.mk "B" "b"; Option.mk "C" "c"])
    (Some [P1; P2; P3]) None.

Definition scenarioM_nodes : list AppNode.t :=
  [ stepM; staticNode "X"; staticNode "Y"; staticNode "Z" ].

Definition scenarioM_edges : list Edge.t :=
  [ mkEdge "M" (JS.str "P1") "X"; mkEdge "M" (JS.str "P2") "Y";
    mkEdge "M" (JS.str "P3") "Z" ].

(** Two paths of equal size, listed against the order of their labels. *)
Definition Pb : LogicPath.t := LogicPath.mk "Pb" "beta" ["B"].
Definition Pa : LogicPath.t := LogicPath.mk "Pa" "alpha" ["A"].

Definition stepTie : AppNode.t :=
  mkNode "M" checkbox (Some [Option.mk "A" "a"; Option.mk "B" "b"])
    (Some [Pb; Pa; P3]) None.

Definition tie_nodes : list AppNode.t :=
  [ stepTie; staticNode "X"; staticNode "Y"; staticNode "Z" ].

Definition tie_edges : list Edge.t :=
  [ mkEdge "M" (JS.str "Pb") "Y"; mkEdge "M" (JS.str "Pa") "X";
    mkEdge "M" (JS.str "P3") "Z" ].

(** A flow that ends in a restartable terminal step. *)
Definition stepFinish : AppNode.t := mkNode "finish" end_ None None (Some true).

Definition restart_nodes : list AppNode.t := [ staticNode "start"; stepFinish ].

Definition restart_edges : list Edge.t :=
  [ mkEdge "start" JS.null "finish" ].

(** An informational step with two outgoing connections and one with none. *)
Definition fork_nodes : list AppNode.t :=
  [ staticNode "start"; staticNode "left"; staticNode "right" ].

Definition fork_edges : list Edge.t :=
  [ mkEdge "start" JS.null "left"; mkEdge "start" JS.null "right" ].

(** A single-choice step whose only connection carries no source handle. *)
Definition bare_nodes : list AppNode.t := [ stepQ; staticNode "X" ].

Definition bare_edges : list Edge.t := [ mkEdge "Q" JS.undefined "X" ].

(** A flow one of whose steps has the empty string as its id. *)
Definition emptyId_nodes : list AppNode.t :=
  [ staticNode "start"; staticNode ""; staticNode "last" ].

Definition emptyId_edges : list Edge.t :=
  [ mkEdge "start" JS.null ""; mkEdge "" JS.null "last" ].

(** ** The rest of [Viewer]: the neighbour previews and the wiring of the
    controls *)

Module JSArray.

(** [Array.from(new Set(arr))]: the distinct elements in the order of their
    first occurrence. *)
Fixpoint unique (arr : list string) : list string :=
  match arr with
  | [] => []
  | x :: rest => x :: filter (fun y => negb (String.eqb y x)) (unique rest)
  end.

(** [arr.filter(Boolean)] on an array of objects and [undefined]s. *)
Fixpoint compact {A : Type} (arr : list (option A)) : list A :=
  match arr with
  | [] => []
  | Some x :: rest => x :: compact rest
  | None :: rest => compact rest
  end.

End JSArray.

(** [prevNodes] (lines 463-468). *)
Definition prevNodes (nodes : list AppNode.t) (edges : list Edge.t) (st : ViewerState)
  : list AppNode.t :=
  let incomingEdgeIds :=
    map Edge.source
      (filter (fun e => String.eqb (Edge.target e) (currentNodeId st)) edges) in
  let uniqueSources := JSArray.unique incomingEdgeIds in
  JSArray.compact (map (fun i => findNode nodes i) uniqueSources).

(** [nextNodes] (lines 471-477). *)
Definition nextNodes (nodes : list AppNode.t) (edges : list Edge.t) (st : ViewerState)
  : list AppNode.t :=
  let outgoingEdgeTargets :=
    map Edge.target
      (filter (fun e => String.eqb (Edge.source e) (currentNodeId st)) edges) in
  let uniqueTargets := JSArray.unique outgoingEdgeTargets in
  JSArray.compact (map (fun i => findNode nodes i) uniqueTargets).

(** [data.options] where it is mapped over ([data.options?.map], [data.options || []]). *)
Definition optionsOrEmpty (d : NodeData.t) : list Option.t :=
  match NodeData.options d with
  | Some os => os
  | None => []
  end.

(** The options that [Viewer] renders as clickable rows (lines 609-633). *)
Definition optionsShown (node : AppNode.t) : list Option.t :=
  match NodeData.type (AppNode.data node) with
  | radio | checkbox => optionsOrEmpty (AppNode.data node)
  | static | end_ => []
  end.

(** What the user can press in the wizard. *)
Inductive Click : Type :=
| ClickOption (optId : string)
| ClickContinue
| ClickBack.

(** The state after a press, as the JSX wires the handlers (lines 561,
    611-616, 638-664): nothing can be pressed when the node is not found, an
    option row exists only for an option of the current node and calls
    [toggleSelection] with [isRadio] set by the node's type, Continue/Restart
    goes through the control's gate, Back exists only with a history. *)
Definition click (localeCompare : string -> string -> Z)
  (nodes : list AppNode.t) (edges : list Edge.t) (st : ViewerState) (c : Click)
  : ViewerState :=
  match currentNode nodes st with
  | None => st
  | Some node =>
      match c with
      | ClickOption optId =>
          if existsb (fun o => String.eqb (Option.id o) optId) (optionsShown node)
          then toggleSelection optId
                 (NodeType_eqb (NodeData.type (AppNode.data node)) radio) st
          else st
      | ClickContinue => snd (pressContinue localeCompare nodes edges st)
      | ClickBack =>
          if negb (Nat.eqb (List.length (history st)) 0) then handleBack st else st
      end
  end.

(** A session: the presses applied in order to the initial state. *)
Definition session (localeCompare : string -> string -> Z)
  (nodes : list AppNode.t) (edges : list Edge.t) (clicks : list Click) : ViewerState :=
  fold_left (click localeCompare nodes edges) clicks initialState.

(** Some connection of the graph leads from [a] to [b]. *)
Definition joined (edges : list Edge.t) (a b : string) : bool :=
  existsb (fun e => String.eqb (Edge.source e) a && String.eqb (Edge.target e) b) edges.

(** Every two consecutive ids of [route] are joined by a connection. *)
Fixpoint walk (edges : list Edge.t) (route : list string) : bool :=
  match route with
  | a :: (b :: _) as rest => joined edges a b && walk edges rest
  | _ => true
  end.

(** Two states at the same position: same history, same current step. *)
Definition samePosition (a b : ViewerState) : Prop :=
  history a = history b /\ currentNodeId a = currentNodeId b.

(** [forward k st st']: [st'] is reached from [st] by [k] committed forward
    moves out of steps with a non-empty id, with any changes of the selections
    in between. *)
Inductive forward (localeCompare : string -> string -> Z)
  (nodes : list AppNode.t) (edges : list Edge.t)
  : nat -> ViewerState -> ViewerState -> Prop :=
| forward_stay st : forward localeCompare nodes edges 0 st st
| forward_select k st st1 sel :
    forward localeCompare nodes edges k st st1 ->
    forward localeCompare nodes edges k st (setSelections sel st1)
| forward_move k st st1 st2 :
    forward localeCompare nodes edges k st st1 ->
    currentNodeId st1 <> "" ->
    handleContinue localeCompare nodes edges st1 = (Moved, st2) ->
    forward localeCompare nodes edges (S k) st st2.

(** ** The editor: [updateNode] and the handlers of [PropertiesPanel] *)

(** [Partial<NodeData>]: the fields an update carries. *)
Module Patch.
Record t : Type := mk {
  label : option string;
  content : option string;
  type : option NodeType;
  options : option (list Option.t);
  paths : option (list LogicPath.t);
  canRestart : option bool
}.
End Patch.

(** [Partial<LogicPath>]. *)
Module PathPatch.
Record t : Type := mk {
  id : option string;
  label : option string;
  requiredOptionIds : option (list string)
}.
End PathPatch.

(** [a] where the update carries it, [b] otherwise. *)
Definition override {A : Type} (a : option A) (b : A) : A :=
  match a with
  | Some v => v
  | None => b
  end.

(** [{ ...n.data, ...newData }] (line 818). *)
Definition mergeData (d : NodeData.t) (newData : Patch.t) : NodeData.t :=
  NodeData.mk
    (override (Patch.label newData) (NodeData.label d))
    (override (Patch.content newData) (NodeData.content d))
    (override (Patch.type newData) (NodeData.type d))
    (match Patch.options newData with Some v => Some v | None => NodeData.options d end)
    (match Patch.paths newData with Some v => Some v | None => NodeData.paths d end)
    (match Patch.canRestart newData with Some v => Some v | None => NodeData.canRestart d end).

(** [{ ...p, ...updates }] (line 318). *)
Definition mergePath (p : LogicPath.t) (updates : PathPatch.t) : LogicPath.t :=
  LogicPath.mk
    (override (PathPatch.id updates) (LogicPath.id p))
    (override (PathPatch.label updates) (LogicPath.label p))
    (override (PathPatch.requiredOptionIds updates) (LogicPath.requiredOptionIds p)).

(** [updateNode] (lines 817-819). *)
Definition updateNode (nodeId : string) (newData : Patch.t) (nds : list AppNode.t)
  : list AppNode.t :=
  map (fun n =>
         if String.eqb (AppNode.id n) nodeId
         then AppNode.mk (AppNode.id n) (mergeData (AppNode.data n) newData)
         else n)
      nds.

Definition optionsPatch (os : list Option.t) : Patch.t :=
  Patch.mk None None None (Some os) None None.

Definition pathsPatch (ps : list LogicPath.t) : Patch.t :=
  Patch.mk None None None None (Some ps) None.

(** The decimal text of an integral number, as a template literal prints it. *)
Definition decimal (z : Z) : string := NilZero.string_of_int (Z.to_int z).

(** The handlers of [PropertiesPanel] (lines 294-324); [now] is the value of
    [Date.now()], [selectedNode] the node the panel shows. *)
Definition addOption (now : Z) (selectedNode : AppNode.t) (nds : list AppNode.t)
  : list AppNode.t :=
  let newOpt := Option.mk ("opt-" ++ decimal now) "New Option" in
  let currentOpts := optionsOrEmpty (AppNode.data selectedNode) in
  updateNode (AppNode.id selectedNode) (optionsPatch (currentOpts ++ [newOpt])) nds.

Definition updateOption (optId label : string) (selectedNode : AppNode.t)
  (nds : list AppNode.t) : list AppNode.t :=
  let currentOpts := optionsOrEmpty (AppNode.data selectedNode) in
  updateNode (AppNode.id selectedNode)
    (optionsPatch
       (map (fun o => if String.eqb (Option.id o) optId
                      then Option.mk (Option.id o) label else o)
            currentOpts))
    nds.

Definition removeOption (optId : string) (selectedNode : AppNode.t)
  (nds : list AppNode.t) : list AppNode.t :=
  let currentOpts := optionsOrEmpty (AppNode.data selectedNode) in
  updateNode (AppNode.id selectedNode)
    (optionsPatch (filter (fun o => negb (String.eqb (Option.id o) optId)) currentOpts))
    nds.

Definition addPath (now : Z) (selectedNode : AppNode.t) (nds : list AppNode.t)
  : list AppNode.t :=
  let newPath := LogicPath.mk ("path-" ++ decimal now) "New Path" [] in
  let currentPaths := pathsOrEmpty (AppNode.data selectedNode) in
  updateNode (AppNode.id selectedNode) (pathsPatch (currentPaths ++ [newPath])) nds.

Definition updatePath (pathId : string) (updates : PathPatch.t)
  (selectedNode : AppNode.t) (nds : list AppNode.t) : list AppNode.t :=
  let currentPaths := pathsOrEmpty (AppNode.data selectedNode) in
  updateNode (AppNode.id selectedNode)
    (pathsPatch
       (map (fun p => if String.eqb (LogicPath.id p) pathId
                      then mergePath p updates else p)
            currentPaths))
    nds.

Definition removePath (pathId : string) (selectedNode : AppNode.t)
  (nds : list AppNode.t) : list AppNode.t :=
  let currentPaths := pathsOrEmpty (AppNode.data selectedNode) in
  updateNode (AppNode.id selectedNode)
    (pathsPatch (filter (fun p => negb (String.eqb (LogicPath.id p) pathId)) currentPaths))
    nds.

(** The [onChange] of a "Requires" checkbox (lines 408-413); [checked] is
    [e.target.checked]. *)
Definition onRequirementChange (checked : bool) (path : LogicPath.t) (opt : Option.t)
  (selectedNode : AppNode.t) (nds : list AppNode.t) : list AppNode.t :=
  let newReqs :=
    if checked
    then LogicPath.requiredOptionIds path ++ [Option.id opt]
    else filter (fun rid => negb (String.eqb rid (Option.id opt)))
           (LogicPath.requiredOptionIds path) in
  updatePath (LogicPath.id path) (PathPatch.mk None None (Some newReqs))
    selectedNode nds.

(** The box shows [path.requiredOptionIds.includes(opt.id)] (line 407); a press
    reports the opposite of what it shows. *)
Definition pressRequirement (path : LogicPath.t) (opt : Option.t)
  (selectedNode : AppNode.t) (nds : list AppNode.t) : list AppNode.t :=
  onRequirementChange
    (negb (JS.includes (LogicPath.requiredOptionIds path) (Option.id opt)))
    path opt selectedNode nds.

(** A multi-choice step without a path that requires nothing. *)
Definition stepStrict : AppNode.t :=
  mkNode "M" checkbox (Some [Option.mk "A" "a"; Option.mk "B" "b"])
    (Some [Pb; Pa]) None.

Definition strict_nodes : list AppNode.t :=
  [ stepStrict; staticNode "X"; staticNode "Y" ].

(** Two paths that tie on the size and on the label. *)
Definition tieA : LogicPath.t := LogicPath.mk "T1" "same" ["A"].
Definition tieB : LogicPath.t := LogicPath.mk "T2" "same" ["B"].

(** The multi-choice scenario with the connection of [P2] left out. *)
Definition unwired_edges : list Edge.t :=
  [ mkEdge "M" (JS.str "P1") "X"; mkEdge "M" (JS.str "P3") "Z" ].

(** A flow that begins with a choice and loops back to its start. *)
Definition stepAsk : AppNode.t :=
  mkNode "start" radio (Some [Option.mk "A" "a"; Option.mk "B" "b"]) None None.

Definition loop_nodes : list AppNode.t :=
  [ stepAsk; staticNode "X"; staticNode "Y" ].

Definition loop_edges : list Edge.t :=
  [ mkEdge "start" (JS.str "A") "X"; mkEdge "start" (JS.str "B") "Y";
    mkEdge "X" JS.null "start"; mkEdge "X" JS.null "Y" ].

(** Choose [A], continue to [X], continue back to the start, press Back. *)
Definition loop_clicks : list Click :=
  [ ClickOption "A"; ClickContinue; ClickContinue; ClickBack ].

(** The multi-choice scenario with a third, still more specific path. *)
Definition P5 : LogicPath.t := LogicPath.mk "P5" "five" ["A"; "B"; "C"].

Definition stepDeep : AppNode.t :=
  mkNode "M" checkbox
    (Some [Option.mk "A" "a"; Option.mk "B" "b"; Option.mk "C" "c"])
    (Some [P1; P2; P5]) None.

Definition deep_nodes : list AppNode.t :=
  [ stepDeep; staticNode "X"; staticNode "Y"; staticNode "W" ].

Definition deep_edges : list Edge.t :=
  [ mkEdge "M" (JS.str "P1") "X"; mkEdge "M" (JS.str "P2") "Y";
    mkEdge "M" (JS.str "P5") "W" ].

(** Three paths of equal size with the labels [c], [b], [a]. *)
Definition Tc : LogicPath.t := LogicPath.mk "Tc" "c" ["C"].
Definition Tb : LogicPath.t := LogicPath.mk "Tb" "b" ["B"].
Definition Ta : LogicPath.t := LogicPath.mk "Ta" "a" ["A"].

Definition stepThree : AppNode.t :=
  mkNode "M" checkbox
    (Some [Option.mk "A" "a"; Option.mk "B" "b"; Option.mk "C" "c"])
    (Some [Tc; Tb; Ta]) None.

Definition three_nodes : list AppNode.t :=
  [ stepThree; staticNode "X"; staticNode "Y"; staticNode "Z" ].

Definition three_edges : list Edge.t :=
  [ mkEdge "M" (JS.str "Tc") "Z"; mkEdge "M" (JS.str "Tb") "Y";
    mkEdge "M" (JS.str "Ta") "X" ].

(** Another comparator to run the component with: the order of the bytes
    after folding upper-case letters to lower case, as an order that ignores
    case does.  It puts [alpha] before [Zeta]; the order of the bytes puts
    [Zeta] first. *)
Definition lowerAscii (c : ascii) : ascii :=
  let n := nat_of_ascii c in
  if Nat.leb 65 n && Nat.leb n 90 then ascii_of_nat (n + 32) else c.

Fixpoint lowerCase (s : string) : string :=
  match s with
  | EmptyString => EmptyString
  | String c rest => String (lowerAscii c) (lowerCase rest)
  end.

Definition foldCompare (a b : string) : Z := byteCompare (lowerCase a) (lowerCase b).

Definition PZeta : LogicPath.t := LogicPath.mk "Pz" "Zeta" ["A"].
Definition Palpha : LogicPath.t := LogicPath.mk "Pal" "alpha" ["B"].

(** * Facts about the JavaScript helpers *)

Lemma truthy_nonempty (s : string) : s <> "" -> JS.truthy s = true.
Proof. destruct s; [congruence | reflexivity]. Qed.

Lemma pop_snoc {A : Type} (l : list A) (x : A) : JS.pop (l ++ [x]) = (Some x, l).
Proof.
  induction l as [| y l IH]; [reflexivity |].
  change ((y :: l) ++ [x]) with (y :: (l ++ [x])).
  cbn [JS.pop]. rewrite IH.
  destruct (l ++ [x]) eqn:E; [destruct l; discriminate | reflexivity].
Qed.

Lemma includes_In (arr : list string) (x : string) :
  JS.includes arr x = true <-> In x arr.
Proof.
  unfold JS.includes. rewrite existsb_exists. split.
  - intros [y [Hy Heq]]. apply String.eqb_eq in Heq. now subst.
  - intros H. exists x. split; [assumption | apply String.eqb_refl].
Qed.

Lemma strictEq_str (h : JS.Nullable) (s : string) :
  JS.strictEq h (JS.str s) = true <-> h = JS.str s.
Proof.
  destruct h as [| | t]; cbn; split; try discriminate.
  - intros H. apply String.eqb_eq in H. now subst.
  - intros H. injection H as ->. apply String.eqb_refl.
Qed.

Lemma strictEq_undefined (h : JS.Nullable) :
  JS.strictEq h JS.undefined = true <-> h = JS.undefined.
Proof. destruct h; cbn; split; congruence. Qed.

(** [find] returns the first element that passes the test. *)
Lemma find_first {A : Type} (f : A -> bool) (pre post : list A) (x : A) :
  (forall y, In y pre -> f y = false) -> f x = true ->
  find f (pre ++ x :: post) = Some x.
Proof.
  intros Hpre Hx. induction pre as [| y pre IH]; cbn.
  - now rewrite Hx.
  - rewrite (Hpre y (or_introl eq_refl)). apply IH.
    intros z Hz. apply Hpre. now right.
Qed.

Lemma find_absent {A : Type} (f : A -> bool) (l : list A) :
  (forall y, In y l -> f y = false) -> find f l = None.
Proof.
  intros H. induction l as [| y l IH]; [reflexivity |]. cbn.
  rewrite (H y (or_introl eq_refl)). apply IH. intros z Hz. apply H. now right.
Qed.

Section SortFacts.

Context {A : Type} (cmp : A -> A -> Z).

Lemma insert_In (x y : A) (l : list A) :
  In y (JS.insert cmp x l) <-> y = x \/ In y l.
Proof.
  induction l as [| z l IH]; cbn.
  - intuition.
  - destruct (cmp x z <=? 0)%Z; cbn; [intuition | rewrite IH; intuition].
Qed.

Lemma sort_In (y : A) (l : list A) : In y (JS.sort cmp l) <-> In y l.
Proof.
  induction l as [| x l IH]; cbn; [reflexivity |].
  rewrite insert_In, IH. intuition.
Qed.

Lemma insert_Permutation (x : A) (l : list A) :
  Permutation (x :: l) (JS.insert cmp x l).
Proof.
  induction l as [| z l IH]; cbn; [apply Permutation_refl |].
  destruct (cmp x z <=? 0)%Z; [apply Permutation_refl |].
  eapply perm_trans; [apply perm_swap | now apply perm_skip].
Qed.

Lemma sort_Permutation (l : list A) : Permutation l (JS.sort cmp l).
Proof.
  induction l as [| x l IH]; cbn; [constructor |].
  eapply perm_trans; [apply perm_skip, IH | apply insert_Permutation].
Qed.

Hypothesis consistent : JS.Consistent cmp.

Lemma cmp_refl (a : A) : cmp a a = 0%Z.
Proof.
  pose proof (JS.cmp_antisym cmp consistent a a) as H. lia.
Qed.

Lemma cmp_flip (a b : A) : (0 < cmp a b)%Z -> (cmp b a < 0)%Z.
Proof. intros H. now apply (JS.cmp_antisym cmp consistent). Qed.

Lemma before_trans (a b c : A) : JS.before cmp a b -> JS.before cmp b c -> JS.before cmp a c.
Proof. apply (JS.cmp_trans cmp consistent). Qed.

Lemma insert_sorted (x : A) (l : list A) :
  StronglySorted (JS.before cmp) l -> StronglySorted (JS.before cmp) (JS.insert cmp x l).
Proof.
  induction 1 as [| z l Hs IH Hz]; cbn.
  - repeat constructor.
  - destruct (cmp x z <=? 0)%Z eqn:E.
    + apply Z.leb_le in E. constructor; [now constructor |].
      constructor; [exact E |].
      eapply Forall_impl; [| exact Hz]. intros w Hw. now apply before_trans with z.
    + apply Z.leb_gt in E. constructor; [exact IH |].
      apply Forall_forall. intros w Hw. apply insert_In in Hw as [-> | Hw].
      * unfold JS.before. apply cmp_flip in E. lia.
      * rewrite Forall_forall in Hz. now apply Hz.
Qed.

Lemma sort_sorted (l : list A) : StronglySorted (JS.before cmp) (JS.sort cmp l).
Proof.
  induction l as [| x l IH]; cbn; [constructor | now apply insert_sorted].
Qed.

(** In a sorted array the first element that passes a test comes before every
    other element that passes it. *)
Lemma find_sorted_least (f : A -> bool) (l : list A) (p : A) :
  StronglySorted (JS.before cmp) l -> find f l = Some p ->
  forall q, In q l -> f q = true -> JS.before cmp p q.
Proof.
  induction 1 as [| z l Hs IH Hz]; cbn; [discriminate |].
  destruct (f z) eqn:Fz.
  - intros [= <-] q [<- | Hq] _.
    + unfold JS.before. rewrite cmp_refl. lia.
    + rewrite Forall_forall in Hz. now apply Hz.
  - intros Hfind q [<- | Hq] Fq; [congruence | now apply IH].
Qed.

(** What [arr.sort(cmp).find(f)] returns: nothing when no element passes [f],
    and otherwise an element of [arr] that passes [f] and that [cmp] puts
    before every element that passes [f]. *)
Lemma sort_find_none (f : A -> bool) (l : list A) :
  (forall q, In q l -> f q = false) -> find f (JS.sort cmp l) = None.
Proof.
  intros H. apply find_absent. intros y Hy. apply H. now apply (proj1 (sort_In y l)).
Qed.

Lemma sort_find_least (f : A -> bool) (l : list A) (c : A) :
  In c l -> f c = true ->
  exists p, find f (JS.sort cmp l) = Some p /\ In p l /\ f p = true /\
            forall q, In q l -> f q = true -> JS.before cmp p q.
Proof.
  intros Hc Fc. destruct (find f (JS.sort cmp l)) as [p |] eqn:E.
  - exists p. destruct (find_some _ _ E) as [Hp Fp]. apply (proj1 (sort_In p l)) in Hp.
    split; [reflexivity |]. split; [assumption |]. split; [assumption |].
    intros q Hq Fq. apply (find_sorted_least f (JS.sort cmp l)); try assumption.
    + apply sort_sorted.
    + now apply (proj2 (sort_In q l)).
  - exfalso. apply (proj2 (sort_In c l)) in Hc.
    pose proof (find_none _ _ E c Hc) as N. congruence.
Qed.

(** [sort] is stable: the elements that [cmp] ties with a given one keep the
    order they had in the array. *)
Lemma cmp_tie_sym (a b : A) : cmp a b = 0%Z -> cmp b a = 0%Z.
Proof.
  intros H. pose proof (JS.cmp_antisym cmp consistent a b).
  pose proof (JS.cmp_antisym cmp consistent b a). lia.
Qed.

Lemma insert_ties (p x : A) (l : list A) :
  filter (fun y => (cmp p y =? 0)%Z) (JS.insert cmp x l)
  = filter (fun y => (cmp p y =? 0)%Z) (x :: l).
Proof.
  induction l as [| z l IH]; [reflexivity |].
  cbn [JS.insert]. destruct (cmp x z <=? 0)%Z eqn:E; [reflexivity |].
  apply Z.leb_gt in E. cbn [filter] in *. rewrite IH.
  destruct (Z.eqb_spec (cmp p x) 0) as [Hx | Hx];
    destruct (Z.eqb_spec (cmp p z) 0) as [Hz | Hz]; try reflexivity.
  exfalso. apply cmp_tie_sym in Hx.
  pose proof (JS.cmp_trans cmp consistent x p z). lia.
Qed.

Lemma sort_stable (p : A) (l : list A) :
  filter (fun y => (cmp p y =? 0)%Z) (JS.sort cmp l)
  = filter (fun y => (cmp p y =? 0)%Z) l.
Proof.
  induction l as [| x l IH]; [reflexivity |].
  cbn [JS.sort]. rewrite insert_ties. cbn [filter]. now rewrite IH.
Qed.

Lemma find_filter {B : Type} (f g : B -> bool) (l : list B) (p : B) :
  find f l = Some p -> g p = true -> find f (filter g l) = Some p.
Proof.
  induction l as [| z l IH]; cbn; [discriminate |].
  destruct (f z) eqn:Fz.
  - intros [= ->] Gp. rewrite Gp. cbn. now rewrite Fz.
  - intros Hfind Gp. destruct (g z); [cbn; rewrite Fz |]; now apply IH.
Qed.

(** Hence among the elements tied with the one that [arr.sort(cmp).find(f)]
    returns, that one is the first of [arr] to pass [f]. *)
Lemma sort_find_first_of_ties (f : A -> bool) (l : list A) (p : A) :
  find f (JS.sort cmp l) = Some p ->
  find f (filter (fun y => (cmp p y =? 0)%Z) l) = Some p.
Proof.
  intros H. rewrite <- sort_stable. apply find_filter; [exact H |].
  rewrite cmp_refl. reflexivity.
Qed.

End SortFacts.

(** * Facts about the component *)

Lemma cardinality_NoDup (ids : list string) :
  NoDup ids -> cardinality ids = List.length ids.
Proof. intros H. unfold cardinality. now rewrite nodup_fixed_point. Qed.

(** A duplicate-free array that holds a strict subset is strictly shorter. *)
Lemma strict_subset_shorter (small large : list string) :
  NoDup small -> incl small large -> ~ incl large small ->
  List.length small < List.length large.
Proof.
  intros Hnd Hsub Hstrict.
  destruct (Nat.lt_ge_cases (List.length small) (List.length large)) as [H | H];
    [exact H |].
  exfalso. apply Hstrict. now apply NoDup_length_incl.
Qed.

Lemma findNode_present (nodes : list AppNode.t) (nodeId : string) :
  (exists t, In t nodes /\ AppNode.id t = nodeId) ->
  exists t, findNode nodes nodeId = Some t /\ AppNode.id t = nodeId.
Proof.
  intros [t [Ht Hid]]. unfold findNode.
  destruct (find (fun n => String.eqb (AppNode.id n) nodeId) nodes) as [u |] eqn:E.
  - exists u. split; [reflexivity |].
    apply find_some in E. now apply String.eqb_eq.
  - pose proof (find_none _ _ E t Ht) as N. cbn in N.
    rewrite <- Hid, String.eqb_refl in N. discriminate.
Qed.

Lemma findNode_missing (nodes : list AppNode.t) (nodeId : string) :
  (forall t, In t nodes -> AppNode.id t <> nodeId) -> findNode nodes nodeId = None.
Proof.
  intros H. apply find_absent. intros t Ht. apply String.eqb_neq. now apply H.
Qed.

Section MatchingFacts.

Variable localeCompare : string -> string -> Z.

Lemma pathMatches_incl (sel : list string) (p : LogicPath.t) :
  pathMatches sel p = true <-> incl (LogicPath.requiredOptionIds p) sel.
Proof.
  unfold pathMatches, JS.every, incl. rewrite forallb_forall.
  split; intros H r Hr; apply includes_In; now apply H.
Qed.

Lemma pathMatches_not_incl (sel : list string) (p : LogicPath.t) :
  ~ incl (LogicPath.requiredOptionIds p) sel -> pathMatches sel p = false.
Proof.
  intros H. destruct (pathMatches sel p) eqn:E; [| reflexivity].
  exfalso. now apply H, pathMatches_incl.
Qed.

(** With nothing selected only a path that requires nothing passes. *)
Lemma pathMatches_nil (p : LogicPath.t) :
  pathMatches [] p = true <-> LogicPath.requiredOptionIds p = [].
Proof.
  rewrite pathMatches_incl. split.
  - intros H. destruct (LogicPath.requiredOptionIds p) as [| r rs]; [reflexivity |].
    destruct (H r (or_introl eq_refl)).
  - intros ->. intros r [].
Qed.

(** The order of [sortedPaths]: longer requirement first, then the label. *)
Lemma comparePaths_before (a b : LogicPath.t) :
  JS.before (comparePaths localeCompare) a b <->
  List.length (LogicPath.requiredOptionIds b) < List.length (LogicPath.requiredOptionIds a)
  \/ (List.length (LogicPath.requiredOptionIds b) = List.length (LogicPath.requiredOptionIds a)
      /\ (localeCompare (LogicPath.label a) (LogicPath.label b) <= 0)%Z).
Proof.
  unfold JS.before, comparePaths. cbv zeta.
  destruct (Z.eqb_spec
    (Z.of_nat (List.length (LogicPath.requiredOptionIds b))
     - Z.of_nat (List.length (LogicPath.requiredOptionIds a))) 0) as [E | E]; cbn [negb].
  - split; [intros H; right; split; [lia | exact H] | intros [H | [_ H]]; [lia | exact H]].
  - split; [intros H; left; lia | intros [H | [H _]]; lia].
Qed.

Lemma comparePaths_consistent :
  JS.Consistent localeCompare -> JS.Consistent (comparePaths localeCompare).
Proof.
  intros [Hanti Htrans]. split.
  - intros a b. unfold comparePaths. cbv zeta.
    destruct (Z.eqb_spec
      (Z.of_nat (List.length (LogicPath.requiredOptionIds b))
       - Z.of_nat (List.length (LogicPath.requiredOptionIds a))) 0) as [E | E];
    destruct (Z.eqb_spec
      (Z.of_nat (List.length (LogicPath.requiredOptionIds a))
       - Z.of_nat (List.length (LogicPath.requiredOptionIds b))) 0) as [F | F];
    cbn [negb]; try lia. apply Hanti.
  - intros a b c Hab Hbc.
    apply comparePaths_before in Hab. apply comparePaths_before in Hbc.
    apply comparePaths_before.
    destruct Hab as [Hab | [Hab Lab]], Hbc as [Hbc | [Hbc Lbc]]; try (left; lia).
    right. split; [lia |]. now apply Htrans with (LogicPath.label b).
Qed.

(** No path passes: [matchedPath] is undefined. *)
Lemma matchedPath_none (paths : list LogicPath.t) (sel : list string) :
  (forall p, In p paths -> ~ incl (LogicPath.requiredOptionIds p) sel) ->
  matchedPath localeCompare paths sel = None.
Proof.
  intros H. unfold matchedPath, sortedPaths. apply sort_find_none.
  intros q Hq. apply pathMatches_not_incl. now apply H.
Qed.

Lemma matchedPath_some (paths : list LogicPath.t) (sel : list string) (p : LogicPath.t) :
  matchedPath localeCompare paths sel = Some p ->
  In p paths /\ incl (LogicPath.requiredOptionIds p) sel.
Proof.
  unfold matchedPath, sortedPaths. intros H. apply find_some in H as [Hin Hm].
  split; [now apply (proj1 (sort_In (comparePaths localeCompare) p paths)) | now apply pathMatches_incl].
Qed.

(** Some path passes: [matchedPath] is a passing path that no passing path
    precedes in the order of [sortedPaths]. *)
Lemma matchedPath_least (paths : list LogicPath.t) (sel : list string) (c : LogicPath.t) :
  JS.Consistent localeCompare ->
  In c paths -> incl (LogicPath.requiredOptionIds c) sel ->
  exists p, matchedPath localeCompare paths sel = Some p /\ In p paths /\
    incl (LogicPath.requiredOptionIds p) sel /\
    forall q, In q paths -> incl (LogicPath.requiredOptionIds q) sel ->
      JS.before (comparePaths localeCompare) p q.
Proof.
  intros Hc Hin Hsub.
  destruct (sort_find_least (comparePaths localeCompare)
              (comparePaths_consistent Hc) (pathMatches sel) paths c Hin
              (proj2 (pathMatches_incl sel c) Hsub))
    as [p [Hfind [Hp [Hm Hleast]]]].
  exists p. split; [exact Hfind |]. split; [exact Hp |].
  split; [now apply pathMatches_incl |].
  intros q Hq Hqsub. apply Hleast; [exact Hq | now apply pathMatches_incl].
Qed.

(** Paths that tie on both the size and the label are resolved in the order
    in which the step lists them. *)
Lemma matchedPath_first_of_ties (paths : list LogicPath.t) (sel : list string)
  (p : LogicPath.t) :
  JS.Consistent localeCompare ->
  matchedPath localeCompare paths sel = Some p ->
  find (pathMatches sel)
    (filter (fun q => (comparePaths localeCompare p q =? 0)%Z) paths) = Some p.
Proof.
  intros Hc H. unfold matchedPath, sortedPaths in H.
  now apply (sort_find_first_of_ties _ (comparePaths_consistent Hc)).
Qed.

(** [handleContinue] on each kind of step. *)
Lemma handleContinue_forward (nodes : list AppNode.t) (edges : list Edge.t)
  (st : ViewerState) (n : AppNode.t) :
  currentNode nodes st = Some n ->
  NodeData.type (AppNode.data n) <> end_ ->
  handleContinue localeCompare nodes edges st
  = followEdge nodes st (nextEdge localeCompare edges st n).
Proof.
  intros Hn Hty. unfold handleContinue. rewrite Hn.
  destruct (NodeData.type (AppNode.data n)); cbn; congruence.
Qed.

Lemma handleContinue_checkbox (nodes : list AppNode.t) (edges : list Edge.t)
  (st : ViewerState) (n : AppNode.t) (p : LogicPath.t) :
  currentNode nodes st = Some n ->
  NodeData.type (AppNode.data n) = checkbox ->
  matchedPath localeCompare (pathsOrEmpty (AppNode.data n)) (selections st) = Some p ->
  handleContinue localeCompare nodes edges st
  = followEdge nodes st
      (find (leaves (currentNodeId st) (JS.str (LogicPath.id p))) edges).
Proof.
  intros Hn Hty Hp. rewrite (handleContinue_forward nodes edges st n Hn) by congruence.
  unfold nextEdge. now rewrite Hty, Hp.
Qed.

Lemma followEdge_moves (nodes : list AppNode.t) (st : ViewerState) (e : Edge.t) :
  (exists t, In t nodes /\ AppNode.id t = Edge.target e) ->
  followEdge nodes st (Some e)
  = (Moved, mkState (history st ++ [currentNodeId st]) (Edge.target e) []).
Proof.
  intros H. destruct (findNode_present nodes (Edge.target e) H) as [t [Ht _]].
  unfold followEdge. now rewrite Ht.
Qed.

Lemma followEdge_dangling (nodes : list AppNode.t) (st : ViewerState) (e : Edge.t) :
  (forall t, In t nodes -> AppNode.id t <> Edge.target e) ->
  followEdge nodes st (Some e) = (Alerted missingNodeMessage, st).
Proof.
  intros H. unfold followEdge. now rewrite (findNode_missing nodes (Edge.target e) H).
Qed.

End MatchingFacts.

(** * The traversal laws *)

Section Laws.

Variable localeCompare : string -> string -> Z.

(** C3. Atomicity of a failed advance.  Whenever [handleContinue] fails, that
    is, commits neither a move nor a restart, the state it leaves is the prior
    state: [currentNodeId], [selections] and [history] are all unchanged.  The
    failures are a plain return and the two alerts; in particular, when no
    connection is resolved the "no valid path" alert is raised, and when the
    resolved connection's target is not a node of the graph the "next node is
    missing" alert is raised, both on the prior state. *)
Theorem advance_failure_atomic
  (nodes : list AppNode.t) (edges : list Edge.t) (st : ViewerState) :
  (forall o st', handleContinue localeCompare nodes edges st = (o, st') ->
     failed o = true ->
     st' = st /\
     (o = Returned \/ o = Alerted noPathMessage \/ o = Alerted missingNodeMessage)) /\
  (forall n, currentNode nodes st = Some n ->
     NodeData.type (AppNode.data n) <> end_ ->
     nextEdge localeCompare edges st n = None ->
     handleContinue localeCompare nodes edges st = (Alerted noPathMessage, st)) /\
  (forall n e, currentNode nodes st = Some n ->
     NodeData.type (AppNode.data n) <> end_ ->
     nextEdge localeCompare edges st n = Some e ->
     (forall t, In t nodes -> AppNode.id t <> Edge.target e) ->
     handleContinue localeCompare nodes edges st = (Alerted missingNodeMessage, st)).
Proof.
  split; [| split].
  - intros o st'. unfold handleContinue.
    destruct (currentNode nodes st) as [n |].
    + destruct (NodeType_eqb (NodeData.type (AppNode.data n)) end_).
      * destruct (JS.truthyFlag (NodeData.canRestart (AppNode.data n)));
          intros [= <- <-]; cbn; intros F; [discriminate | auto].
      * unfold followEdge.
        destruct (nextEdge localeCompare edges st n) as [e |].
        -- destruct (findNode nodes (Edge.target e));
             intros [= <- <-]; cbn; intros F; [discriminate | auto].
        -- intros [= <- <-]; auto.
    + intros [= <- <-]; auto.
  - intros n Hn Hty Hnone.
    rewrite (handleContinue_forward localeCompare nodes edges st n Hn Hty).
    now rewrite Hnone.
  - intros n e Hn Hty Hsome Hmiss.
    rewrite (handleContinue_forward localeCompare nodes edges st n Hn Hty).
    rewrite Hsome. now apply followEdge_dangling.
Qed.

(** C6. Terminal restart.  On an [end] step whose [canRestart] is true,
    [handleContinue] succeeds and yields the initial state: empty history,
    empty selections and the start step ['start'] as the current step,
    whatever the history and the selections were. *)
Theorem terminal_restart
  (nodes : list AppNode.t) (edges : list Edge.t) (st : ViewerState) (n : AppNode.t) :
  currentNode nodes st = Some n ->
  NodeData.type (AppNode.data n) = end_ ->
  NodeData.canRestart (AppNode.data n) = Some true ->
  handleContinue localeCompare nodes edges st = (Restarted, mkState [] "start" [])
  /\ mkState [] "start" [] = initialState.
Proof.
  intros Hn Hty Hre. split; [| reflexivity].
  unfold handleContinue. now rewrite Hn, Hty, Hre.
Qed.

(** C8. An informational ([static]) step with no outgoing connection:
    [handleContinue] fails with the "no valid path" alert and the state is
    unchanged. *)
Theorem informational_no_connection
  (nodes : list AppNode.t) (edges : list Edge.t) (st : ViewerState) (n : AppNode.t) :
  currentNode nodes st = Some n ->
  NodeData.type (AppNode.data n) = static ->
  (forall e, In e edges -> Edge.source e <> currentNodeId st) ->
  handleContinue localeCompare nodes edges st = (Alerted noPathMessage, st).
Proof.
  intros Hn Hty Hnone.
  rewrite (handleContinue_forward localeCompare nodes edges st n Hn) by congruence.
  unfold nextEdge. rewrite Hty.
  rewrite find_absent; [reflexivity |].
  intros e He. apply String.eqb_neq. now apply Hnone.
Qed.

(** C10. An informational ([static]) step with outgoing connections: the
    connection taken is the first one of the edge list whose source is the
    current step.  When that connection's target is a node of the graph,
    [handleContinue] moves there, pushing the current step on the history and
    clearing the selections; later connections of the step are never
    considered, not even when the first one's target is missing. *)
Theorem informational_first_connection
  (nodes : list AppNode.t) (edges : list Edge.t) (st : ViewerState) (n : AppNode.t)
  (earlier later : list Edge.t) (e : Edge.t) :
  currentNode nodes st = Some n ->
  NodeData.type (AppNode.data n) = static ->
  edges = earlier ++ e :: later ->
  (forall e', In e' earlier -> Edge.source e' <> currentNodeId st) ->
  Edge.source e = currentNodeId st ->
  ((exists t, In t nodes /\ AppNode.id t = Edge.target e) ->
   handleContinue localeCompare nodes edges st
   = (Moved, mkState (history st ++ [currentNodeId st]) (Edge.target e) []))
  /\
  ((forall t, In t nodes -> AppNode.id t <> Edge.target e) ->
   handleContinue localeCompare nodes edges st = (Alerted missingNodeMessage, st)).
Proof.
  intros Hn Hty -> Hearlier He.
  rewrite (handleContinue_forward localeCompare nodes _ st n Hn) by congruence.
  unfold nextEdge. rewrite Hty.
  rewrite find_first.
  - split; [apply followEdge_moves | apply followEdge_dangling].
  - intros e' He'. apply String.eqb_neq. now apply Hearlier.
  - rewrite He. apply String.eqb_refl.
Qed.

(** C7. Single-choice resolution.  On a [radio] step with exactly one selected
    option [c], [handleContinue] follows the (first) connection that leaves the
    step through the handle [c], pushing the step on the history; when no
    connection of the step has [c] as its source handle it fails with the "no
    valid path" alert.  In the scenario [Q], with [Q--A-->X] and [Q--B-->Y],
    selecting [B] and continuing yields the current step [Y] and the history
    [[Q]]. *)
Theorem single_choice_resolution :
  (forall nodes edges st n c,
     currentNode nodes st = Some n ->
     NodeData.type (AppNode.data n) = radio ->
     selections st = [c] ->
     (forall earlier e later,
        edges = earlier ++ e :: later ->
        (forall e', In e' earlier ->
           ~ (Edge.source e' = currentNodeId st /\ Edge.sourceHandle e' = JS.str c)) ->
        Edge.source e = currentNodeId st ->
        Edge.sourceHandle e = JS.str c ->
        (exists t, In t nodes /\ AppNode.id t = Edge.target e) ->
        handleContinue localeCompare nodes edges st
        = (Moved, mkState (history st ++ [currentNodeId st]) (Edge.target e) []))
     /\
     ((forall e, In e edges ->
         ~ (Edge.source e = currentNodeId st /\ Edge.sourceHandle e = JS.str c)) ->
      handleContinue localeCompare nodes edges st = (Alerted noPathMessage, st)))
  /\
  handleContinue localeCompare scenarioQ_nodes scenarioQ_edges
    (toggleSelection "B" true (mkState [] "Q" []))
  = (Moved, mkState ["Q"] "Y" []).
Proof.
  assert (Hleaves : forall cur c e,
            leaves cur (JS.str c) e = true
            <-> Edge.source e = cur /\ Edge.sourceHandle e = JS.str c).
  { intros cur c e. unfold leaves.
    rewrite andb_true_iff, String.eqb_eq, strictEq_str. reflexivity. }
  split; [| reflexivity].
  intros nodes edges st n c Hn Hty Hsel. split.
  - intros earlier e later -> Hearlier Hsrc Hh Htgt.
    rewrite (handleContinue_forward localeCompare nodes _ st n Hn) by congruence.
    unfold nextEdge. rewrite Hty, Hsel. cbn [JS.first].
    rewrite find_first.
    + now apply followEdge_moves.
    + intros e' He'. destruct (leaves (currentNodeId st) (JS.str c) e') eqn:E;
        [| reflexivity].
      exfalso. apply (Hearlier e' He'). now apply Hleaves.
    + now apply Hleaves.
  - intros Hnone.
    rewrite (handleContinue_forward localeCompare nodes edges st n Hn) by congruence.
    unfold nextEdge. rewrite Hty, Hsel. cbn [JS.first].
    rewrite find_absent; [reflexivity |].
    intros e He. destruct (leaves (currentNodeId st) (JS.str c) e) eqn:E;
      [| reflexivity].
    exfalso. apply (Hnone e He). now apply Hleaves.
Qed.

(** C9. Start validation.  The run starts at the step whose id is ['start'].
    When no node of the graph has that id, [Viewer] renders "Node not found"
    and [handleContinue] does nothing; when one has, [Viewer] presents (the
    first) such node in the initial state: current step ['start'], empty
    selections and empty history. *)
Theorem start_validation (nodes : list AppNode.t) :
  ((forall t, In t nodes -> AppNode.id t <> "start") ->
   Viewer nodes initialState = NodeNotFound /\
   forall edges,
     handleContinue localeCompare nodes edges initialState = (Returned, initialState))
  /\
  ((exists t, In t nodes /\ AppNode.id t = "start") ->
   exists t, Viewer nodes initialState = Wizard t false /\
     In t nodes /\ AppNode.id t = currentNodeId initialState)
  /\
  currentNodeId initialState = "start" /\
  selections initialState = [] /\
  history initialState = [].
Proof.
  split; [| split; [| repeat split]].
  - intros Hmiss. unfold Viewer, handleContinue, currentNode.
    change (currentNodeId initialState) with "start".
    now rewrite (findNode_missing nodes _ Hmiss).
  - intros Hex. destruct (findNode_present nodes "start" Hex) as [t [Ht Hid]].
    exists t. unfold Viewer, currentNode.
    change (currentNodeId initialState) with "start". rewrite Ht. split; [reflexivity |]. split; [| exact Hid].
    unfold findNode in Ht. now apply find_some in Ht.
Qed.

(** C1, as amended.  Multi-choice matching is subset matching ordered by
    specificity.  On a [checkbox] step a path is a candidate exactly when every
    id it requires is among the selections (so a path requiring [A] is a
    candidate for the selections [A], [B]), and the path resolved is always a
    candidate.  Whenever two paths of the step are both candidates and the
    required set of the first — held without repetition — is a strict subset
    of the required set of the second, the first is never the path resolved:
    a path is resolved, it requires at least as many ids as the second, and
    [handleContinue] follows the connection leaving through its handle; it is
    the second itself when every other candidate requires fewer ids than the
    second. *)
Theorem multichoice_subset_specificity
  (nodes : list AppNode.t) (edges : list Edge.t) (st : ViewerState) (n : AppNode.t) :
  JS.Consistent localeCompare ->
  currentNode nodes st = Some n ->
  NodeData.type (AppNode.data n) = checkbox ->
  (forall p, pathMatches (selections st) p = true
             <-> incl (LogicPath.requiredOptionIds p) (selections st))
  /\ pathMatches ["A"; "B"] (LogicPath.mk "P1" "one" ["A"]) = true
  /\ (forall p,
        matchedPath localeCompare (pathsOrEmpty (AppNode.data n)) (selections st) = Some p ->
        In p (pathsOrEmpty (AppNode.data n))
        /\ incl (LogicPath.requiredOptionIds p) (selections st))
  /\ (forall general specific,
        In general (pathsOrEmpty (AppNode.data n)) ->
        In specific (pathsOrEmpty (AppNode.data n)) ->
        incl (LogicPath.requiredOptionIds general) (selections st) ->
        incl (LogicPath.requiredOptionIds specific) (selections st) ->
        NoDup (LogicPath.requiredOptionIds general) ->
        incl (LogicPath.requiredOptionIds general) (LogicPath.requiredOptionIds specific) ->
        ~ incl (LogicPath.requiredOptionIds specific) (LogicPath.requiredOptionIds general) ->
        exists p,
          matchedPath localeCompare (pathsOrEmpty (AppNode.data n)) (selections st) = Some p
          /\ p <> general
          /\ List.length (LogicPath.requiredOptionIds specific)
             <= List.length (LogicPath.requiredOptionIds p)
          /\ handleContinue localeCompare nodes edges st
             = followEdge nodes st
                 (find (leaves (currentNodeId st) (JS.str (LogicPath.id p))) edges)
          /\ ((forall q, In q (pathsOrEmpty (AppNode.data n)) ->
                 incl (LogicPath.requiredOptionIds q) (selections st) ->
                 q = specific
                 \/ List.length (LogicPath.requiredOptionIds q)
                    < List.length (LogicPath.requiredOptionIds specific)) ->
              p = specific)).
Proof.
  intros Hc Hn Hty.
  split; [intros p; apply pathMatches_incl |].
  split; [reflexivity |].
  split; [intros p; apply matchedPath_some |].
  intros general specific Hg Hs Hgsel Hssel Hnd Hsub Hstrict.
  pose proof (strict_subset_shorter _ _ Hnd Hsub Hstrict) as Hlen.
  destruct (matchedPath_least localeCompare _ _ specific Hc Hs Hssel)
    as [p [Hp [Hin [Hpsel Hleast]]]].
  pose proof (proj1 (comparePaths_before localeCompare p specific)
                (Hleast specific Hs Hssel)) as Hps.
  exists p. split; [exact Hp |].
  split; [intros ->; lia |].
  split; [lia |].
  split; [now apply handleContinue_checkbox with n |].
  intros Honly. destruct (Honly p Hin Hpsel) as [-> | Hlt]; [reflexivity | lia].
Qed.

(** C2, as amended.  Multi-choice tie-breaking.  The labels are ordered by the
    host's [localeCompare], whatever order that is.  On a [checkbox] step whose
    paths hold their required sets without repetition, let two candidate paths
    have required sets of equal cardinality, maximal among the candidates, and
    let the label of the first come strictly before the label of the second in
    that order.  Then the second is never the path resolved: a path is
    resolved, it has that same cardinality and its label does not come after
    the label of the first, and [handleContinue] follows the connection leaving
    through its handle; it is the first itself when the label of the first
    comes strictly before the label of every other candidate of that
    cardinality. *)
Theorem multichoice_tie_break
  (nodes : list AppNode.t) (edges : list Edge.t) (st : ViewerState) (n : AppNode.t)
  (smaller larger : LogicPath.t) :
  JS.Consistent localeCompare ->
  currentNode nodes st = Some n ->
  NodeData.type (AppNode.data n) = checkbox ->
  (forall q, In q (pathsOrEmpty (AppNode.data n)) ->
     NoDup (LogicPath.requiredOptionIds q)) ->
  In smaller (pathsOrEmpty (AppNode.data n)) ->
  In larger (pathsOrEmpty (AppNode.data n)) ->
  incl (LogicPath.requiredOptionIds smaller) (selections st) ->
  incl (LogicPath.requiredOptionIds larger) (selections st) ->
  cardinality (LogicPath.requiredOptionIds smaller)
  = cardinality (LogicPath.requiredOptionIds larger) ->
  (forall q, In q (pathsOrEmpty (AppNode.data n)) ->
     incl (LogicPath.requiredOptionIds q) (selections st) ->
     cardinality (LogicPath.requiredOptionIds q)
     <= cardinality (LogicPath.requiredOptionIds smaller)) ->
  (localeCompare (LogicPath.label smaller) (LogicPath.label larger) < 0)%Z ->
  exists p,
    matchedPath localeCompare (pathsOrEmpty (AppNode.data n)) (selections st) = Some p
    /\ p <> larger
    /\ cardinality (LogicPath.requiredOptionIds p)
       = cardinality (LogicPath.requiredOptionIds smaller)
    /\ (localeCompare (LogicPath.label p) (LogicPath.label smaller) <= 0)%Z
    /\ handleContinue localeCompare nodes edges st
       = followEdge nodes st
           (find (leaves (currentNodeId st) (JS.str (LogicPath.id p))) edges)
    /\ ((forall q, In q (pathsOrEmpty (AppNode.data n)) ->
           incl (LogicPath.requiredOptionIds q) (selections st) ->
           cardinality (LogicPath.requiredOptionIds q)
           = cardinality (LogicPath.requiredOptionIds smaller) ->
           q = smaller
           \/ (localeCompare (LogicPath.label smaller) (LogicPath.label q) < 0)%Z) ->
        p = smaller).
Proof.
  intros Hc Hn Hty Hnd Hs Hl Hssel Hlsel Hcard Hmax Hlabel.
  destruct (matchedPath_least localeCompare _ _ smaller Hc Hs Hssel)
    as [p [Hp [Hin [Hpsel Hleast]]]].
  pose proof (proj1 (comparePaths_before localeCompare p smaller)
                (Hleast smaller Hs Hssel)) as Hps.
  pose proof (Hmax p Hin Hpsel) as Hpmax.
  pose proof (cardinality_NoDup _ (Hnd p Hin)) as Ep.
  pose proof (cardinality_NoDup _ (Hnd smaller Hs)) as Es.
  assert (Hlen : cardinality (LogicPath.requiredOptionIds p)
                 = cardinality (LogicPath.requiredOptionIds smaller)
                 /\ (localeCompare (LogicPath.label p) (LogicPath.label smaller) <= 0)%Z).
  { destruct Hps as [Hps | [Hps Hlab]]; [lia | split; [lia | exact Hlab]]. }
  destruct Hlen as [Hlen Hlab].
  exists p. split; [exact Hp |].
  split.
  { intros ->. pose proof (JS.cmp_antisym _ Hc (LogicPath.label smaller)
                             (LogicPath.label larger)) as Ha. lia. }
  split; [exact Hlen |].
  split; [exact Hlab |].
  split; [now apply handleContinue_checkbox with n |].
  intros Honly.
  destruct (Honly p Hin Hpsel Hlen) as [-> | Hlt]; [reflexivity |].
  pose proof (JS.cmp_antisym _ Hc (LogicPath.label smaller) (LogicPath.label p)) as Ha.
  lia.
Qed.

(** C4, as amended.  [handleContinue] does not check the selections itself:
    the check is the Continue control's.  On a [radio] or [checkbox] step with
    no selection that control is disabled, so a press of it commits nothing and
    changes no state.  Called all the same, [handleContinue] fails with the "no
    valid path" alert and leaves the state unchanged on a [radio] step none of
    whose connections lacks a source handle, and on a [checkbox] step none of
    whose paths has an empty requirement.  On a [checkbox] step that lists a
    path with an empty requirement, a path with an empty requirement is
    resolved and [handleContinue] goes by the first connection that leaves the
    step through that path's handle: with no such connection it raises the "no
    valid path" alert, with one whose target is not a node it raises the "next
    node is missing" alert, both on the unchanged state, and with one whose
    target is a node it commits the move there. *)
Theorem empty_selection_gate
  (nodes : list AppNode.t) (edges : list Edge.t) (st : ViewerState) (n : AppNode.t) :
  currentNode nodes st = Some n ->
  NodeData.type (AppNode.data n) = radio \/ NodeData.type (AppNode.data n) = checkbox ->
  selections st = [] ->
  canAdvance n st = false
  /\ pressContinue localeCompare nodes edges st = (Returned, st)
  /\ (NodeData.type (AppNode.data n) = radio ->
      (forall e, In e edges -> Edge.source e = currentNodeId st ->
         Edge.sourceHandle e <> JS.undefined) ->
      handleContinue localeCompare nodes edges st = (Alerted noPathMessage, st))
  /\ (NodeData.type (AppNode.data n) = checkbox ->
      (forall p, In p (pathsOrEmpty (AppNode.data n)) ->
         LogicPath.requiredOptionIds p <> []) ->
      handleContinue localeCompare nodes edges st = (Alerted noPathMessage, st))
  /\ (NodeData.type (AppNode.data n) = checkbox ->
      (exists d, In d (pathsOrEmpty (AppNode.data n))
                 /\ LogicPath.requiredOptionIds d = []) ->
      exists p,
        matchedPath localeCompare (pathsOrEmpty (AppNode.data n)) [] = Some p
        /\ In p (pathsOrEmpty (AppNode.data n))
        /\ LogicPath.requiredOptionIds p = []
        /\ handleContinue localeCompare nodes edges st
           = followEdge nodes st
               (find (leaves (currentNodeId st) (JS.str (LogicPath.id p))) edges)
        /\ ((forall e, In e edges ->
               ~ (Edge.source e = currentNodeId st
                  /\ Edge.sourceHandle e = JS.str (LogicPath.id p))) ->
            handleContinue localeCompare nodes edges st = (Alerted noPathMessage, st))
        /\ (forall earlier e later,
              edges = earlier ++ e :: later ->
              (forall e', In e' earlier ->
                 ~ (Edge.source e' = currentNodeId st
                    /\ Edge.sourceHandle e' = JS.str (LogicPath.id p))) ->
              Edge.source e = currentNodeId st ->
              Edge.sourceHandle e = JS.str (LogicPath.id p) ->
              ((exists t, In t nodes /\ AppNode.id t = Edge.target e) ->
               handleContinue localeCompare nodes edges st
               = (Moved, mkState (history st ++ [currentNodeId st]) (Edge.target e) []))
              /\ ((forall t, In t nodes -> AppNode.id t <> Edge.target e) ->
                  handleContinue localeCompare nodes edges st
                  = (Alerted missingNodeMessage, st)))).
Proof.
  intros Hn Hty Hsel.
  assert (Hgate : canAdvance n st = false).
  { unfold canAdvance. rewrite Hsel. destruct Hty as [-> | ->]; reflexivity. }
  split; [exact Hgate |].
  split; [unfold pressContinue; now rewrite Hn, Hgate |].
  split; [| split].
  - intros Hr Hh.
    rewrite (handleContinue_forward localeCompare nodes edges st n Hn) by congruence.
    unfold nextEdge. rewrite Hr, Hsel. cbn [JS.first].
    rewrite find_absent; [reflexivity |].
    intros e He. unfold leaves.
    destruct (String.eqb_spec (Edge.source e) (currentNodeId st)) as [Hs | Hs];
      [| reflexivity].
    cbn [andb]. destruct (JS.strictEq (Edge.sourceHandle e) JS.undefined) eqn:E;
      [| reflexivity].
    exfalso. apply (Hh e He Hs). now apply strictEq_undefined.
  - intros Hc Hreq.
    rewrite (handleContinue_forward localeCompare nodes edges st n Hn) by congruence.
    unfold nextEdge. rewrite Hc, Hsel.
    rewrite matchedPath_none; [reflexivity |].
    intros p Hp Hincl. apply (Hreq p Hp).
    now apply pathMatches_nil, pathMatches_incl.
  - intros Hc [d [Hd Hdreq]].
    assert (Hleaves : forall h e,
              leaves (currentNodeId st) (JS.str h) e = true
              <-> Edge.source e = currentNodeId st /\ Edge.sourceHandle e = JS.str h).
    { intros h e. unfold leaves.
      rewrite andb_true_iff, String.eqb_eq, strictEq_str. reflexivity. }
    destruct (matchedPath localeCompare (pathsOrEmpty (AppNode.data n)) []) as [p |] eqn:E.
    2: { exfalso. unfold matchedPath, sortedPaths in E.
         pose proof (find_none _ _ E d
                       (proj2 (sort_In (comparePaths localeCompare) d _) Hd)) as N.
         rewrite (proj2 (pathMatches_nil d) Hdreq) in N. discriminate N. }
    destruct (matchedPath_some localeCompare _ _ _ E) as [Hin Hincl].
    assert (Hgo : handleContinue localeCompare nodes edges st
                  = followEdge nodes st
                      (find (leaves (currentNodeId st) (JS.str (LogicPath.id p))) edges)).
    { apply handleContinue_checkbox with n; [exact Hn | exact Hc |].
      rewrite Hsel. exact E. }
    exists p. split; [reflexivity |]. split; [exact Hin |].
    split; [now apply pathMatches_nil, pathMatches_incl |].
    split; [exact Hgo |]. split.
    + intros Hnone. rewrite Hgo, find_absent; [reflexivity |].
      intros e He. destruct (leaves (currentNodeId st) (JS.str (LogicPath.id p)) e) eqn:L;
        [| reflexivity].
      exfalso. apply (Hnone e He). now apply Hleaves.
    + intros earlier e later Hedges Hearlier Hsrc Hh. rewrite Hgo, Hedges.
      rewrite find_first.
      * split; [apply followEdge_moves | apply followEdge_dangling].
      * intros e' He'.
        destruct (leaves (currentNodeId st) (JS.str (LogicPath.id p)) e') eqn:L;
          [| reflexivity].
        exfalso. apply (Hearlier e' He'). now apply Hleaves.
      * now apply Hleaves.
Qed.

(** C5, as amended.  When [handleContinue] commits a forward move from a step
    whose id is a non-empty string, [handleBack] on the resulting state yields
    that step as the current step, with empty selections and the history as it
    was before the move.  After a restart the history is empty and
    [handleBack] changes nothing. *)
Theorem back_after_move
  (nodes : list AppNode.t) (edges : list Edge.t) (st st' : ViewerState) :
  (handleContinue localeCompare nodes edges st = (Moved, st') ->
   currentNodeId st <> "" ->
   handleBack st' = mkState (history st) (currentNodeId st) [])
  /\
  (handleContinue localeCompare nodes edges st = (Restarted, st') ->
   st' = initialState /\ handleBack st' = st').
Proof.
  unfold handleContinue.
  destruct (currentNode nodes st) as [n |]; [| split; discriminate].
  destruct (NodeType_eqb (NodeData.type (AppNode.data n)) end_).
  - destruct (JS.truthyFlag (NodeData.canRestart (AppNode.data n)));
      split; try discriminate.
    intros [= <-]. split; reflexivity.
  - unfold followEdge.
    destruct (nextEdge localeCompare edges st n) as [e |]; [| split; discriminate].
    destruct (findNode nodes (Edge.target e)); split; try discriminate.
    intros [= <-] Hne. unfold handleBack.
    cbn [history setSelections setCurrentNodeId setHistory currentNodeId selections].
    rewrite length_app, Nat.add_comm. cbn [List.length Nat.add Nat.eqb].
    rewrite pop_snoc. now rewrite (truthy_nonempty _ Hne).
Qed.

End Laws.

(** * The laws at work on concrete flows *)

Lemma byteCompare_consistent : JS.Consistent byteCompare.
Proof.
  assert (Hle : forall a b, (byteCompare a b <= 0)%Z
                            <-> a = b \/ String_as_OT.lt a b).
  { intros a b. unfold byteCompare.
    destruct (String.compare a b) eqn:E.
    - apply String.compare_eq_iff in E. split; [now left | lia].
    - apply String_as_OT.cmp_lt in E. split; [now right | lia].
    - split; [lia |]. intros [H | H].
      + apply String_as_OT.cmp_eq in H. unfold String_as_OT.cmp in H. congruence.
      + apply String_as_OT.cmp_lt in H. unfold String_as_OT.cmp in H. congruence. }
  split.
  - intros a b. unfold byteCompare. rewrite (String.compare_antisym a b).
    destruct (String.compare b a); cbn; lia.
  - intros a b c Hab Hbc. apply Hle in Hab. apply Hle in Hbc. apply Hle.
    destruct Hab as [-> | Hab]; [exact Hbc |].
    destruct Hbc as [<- | Hbc]; [now right |].
    right. now apply String_as_OT.lt_trans with b.
Qed.

(** The multi-choice scenario with [A] and [B] selected: [P2] is resolved. *)
Lemma multichoice_subset_specificity_witness :
  JS.Consistent byteCompare
  /\ currentNode scenarioM_nodes (mkState [] "M" ["A"; "B"]) = Some stepM
  /\ NodeData.type (AppNode.data stepM) = checkbox
  /\ matchedPath byteCompare [P1; P2; P3] ["A"; "B"] = Some P2
  /\ handleContinue byteCompare scenarioM_nodes scenarioM_edges (mkState [] "M" ["A"; "B"])
     = (Moved, mkState ["M"] "Y" []).
Proof.
  split; [exact byteCompare_consistent |].
  split; [reflexivity |]. split; [reflexivity |].
  destruct (multichoice_subset_specificity byteCompare
              scenarioM_nodes scenarioM_edges (mkState [] "M" ["A"; "B"]) stepM
              byteCompare_consistent eq_refl eq_refl) as [_ [_ [_ H]]].
  destruct (H P1 P2) as [p [Hp [_ [_ [Hgo Honly]]]]].
  - left; reflexivity.
  - right; left; reflexivity.
  - intros x [<- | []]. left; reflexivity.
  - intros x [<- | [<- | []]]; [left | right; left]; reflexivity.
  - constructor; [intros [] | constructor].
  - intros x [<- | []]. left; reflexivity.
  - intros Hincl. destruct (Hincl "B" (or_intror (or_introl eq_refl))) as [E | []].
    discriminate E.
  - assert (E : p = P2).
    { apply Honly. intros q [<- | [<- | [<- | []]]] _.
      - right. cbn. lia.
      - left. reflexivity.
      - right. cbn. lia. }
    subst p. split; [exact Hp |]. rewrite Hgo. reflexivity.
Defined.

(** Two candidates of equal size listed as [beta], [alpha]: [alpha] is resolved. *)
Lemma multichoice_tie_break_witness :
  JS.Consistent byteCompare
  /\ cardinality (LogicPath.requiredOptionIds Pa) = cardinality (LogicPath.requiredOptionIds Pb)
  /\ (byteCompare (LogicPath.label Pa) (LogicPath.label Pb) < 0)%Z
  /\ matchedPath byteCompare [Pb; Pa; P3] ["A"; "B"] = Some Pa
  /\ handleContinue byteCompare tie_nodes tie_edges (mkState [] "M" ["A"; "B"])
     = (Moved, mkState ["M"] "X" []).
Proof.
  split; [exact byteCompare_consistent |].
  split; [reflexivity |]. split; [reflexivity |].
  destruct (multichoice_tie_break byteCompare
              tie_nodes tie_edges (mkState [] "M" ["A"; "B"]) stepTie Pa Pb
              byteCompare_consistent eq_refl eq_refl) as [p [Hp [_ [_ [_ [Hgo Honly]]]]]].
  - intros q [<- | [<- | [<- | []]]]; repeat constructor; intros [].
  - right; left; reflexivity.
  - left; reflexivity.
  - intros x [<- | []]. left; reflexivity.
  - intros x [<- | []]. right; left; reflexivity.
  - reflexivity.
  - intros q [<- | [<- | [<- | []]]] _; cbn; lia.
  - reflexivity.
  - assert (E : p = Pa).
    { apply Honly. intros q [<- | [<- | [<- | []]]] _ Hcard.
      - right. reflexivity.
      - left. reflexivity.
      - discriminate Hcard. }
    subst p. split; [exact Hp |]. rewrite Hgo. reflexivity.
Defined.

(** A step with no way forward: the alert is raised on the untouched state. *)
Lemma advance_failure_atomic_witness :
  handleContinue byteCompare fork_nodes fork_edges (mkState ["start"] "left" [])
  = (Alerted noPathMessage, mkState ["start"] "left" [])
  /\ failed (Alerted noPathMessage) = true
  /\ mkState ["start"] "left" [] = mkState ["start"] "left" [].
Proof.
  split; [reflexivity |]. split; [reflexivity |].
  exact (proj1 (proj1 (advance_failure_atomic byteCompare fork_nodes fork_edges
                         (mkState ["start"] "left" []))
                  (Alerted noPathMessage) (mkState ["start"] "left" [])
                  eq_refl eq_refl)).
Defined.

(** The multi-choice scenario with nothing selected: the control is disabled. *)
Lemma empty_selection_gate_witness :
  currentNode scenarioM_nodes (mkState [] "M" []) = Some stepM
  /\ NodeData.type (AppNode.data stepM) = checkbox
  /\ canAdvance stepM (mkState [] "M" []) = false
  /\ pressContinue byteCompare scenarioM_nodes scenarioM_edges (mkState [] "M" [])
     = (Returned, mkState [] "M" []).
Proof.
  split; [reflexivity |]. split; [reflexivity |].
  destruct (empty_selection_gate byteCompare scenarioM_nodes scenarioM_edges
              (mkState [] "M" []) stepM eq_refl (or_intror eq_refl) eq_refl)
    as [Hgate [Hpress _]].
  split; [exact Hgate | exact Hpress].
Defined.

(** The single-choice scenario: back after the move to [Y] returns to [Q]. *)
Lemma back_after_move_witness :
  handleContinue byteCompare scenarioQ_nodes scenarioQ_edges (mkState [] "Q" ["B"])
  = (Moved, mkState ["Q"] "Y" [])
  /\ "Q" <> ""
  /\ handleBack (mkState ["Q"] "Y" []) = mkState [] "Q" [].
Proof.
  split; [reflexivity |]. split; [discriminate |].
  apply (proj1 (back_after_move byteCompare scenarioQ_nodes scenarioQ_edges
                  (mkState [] "Q" ["B"]) (mkState ["Q"] "Y" []))).
  - reflexivity.
  - discriminate.
Defined.

(** Restart from the terminal step, with a history and a stray selection. *)
Lemma terminal_restart_witness :
  currentNode restart_nodes (mkState ["start"] "finish" ["stray"]) = Some stepFinish
  /\ NodeData.type (AppNode.data stepFinish) = end_
  /\ NodeData.canRestart (AppNode.data stepFinish) = Some true
  /\ handleContinue byteCompare restart_nodes restart_edges
       (mkState ["start"] "finish" ["stray"])
     = (Restarted, mkState [] "start" []).
Proof.
  split; [reflexivity |]. split; [reflexivity |]. split; [reflexivity |].
  exact (proj1 (terminal_restart byteCompare restart_nodes restart_edges
                  (mkState ["start"] "finish" ["stray"]) stepFinish
                  eq_refl eq_refl eq_refl)).
Defined.

(** The single-choice scenario with [A] selected: the connection to [X]. *)
Lemma single_choice_resolution_witness :
  currentNode scenarioQ_nodes (mkState [] "Q" ["A"]) = Some stepQ
  /\ NodeData.type (AppNode.data stepQ) = radio
  /\ handleContinue byteCompare scenarioQ_nodes scenarioQ_edges (mkState [] "Q" ["A"])
     = (Moved, mkState ["Q"] "X" []).
Proof.
  split; [reflexivity |]. split; [reflexivity |].
  apply (proj1 (proj1 (single_choice_resolution byteCompare)
                  scenarioQ_nodes scenarioQ_edges (mkState [] "Q" ["A"]) stepQ "A"
                  eq_refl eq_refl eq_refl)
           [] (mkEdge "Q" (JS.str "A") "X") [mkEdge "Q" (JS.str "B") "Y"]).
  - reflexivity.
  - intros e' [].
  - reflexivity.
  - reflexivity.
  - exists (staticNode "X"). split; [right; left; reflexivity | reflexivity].
Defined.

(** The step [left] of the fork has no outgoing connection. *)
Lemma informational_no_connection_witness :
  currentNode fork_nodes (mkState ["start"] "left" []) = Some (staticNode "left")
  /\ NodeData.type (AppNode.data (staticNode "left")) = static
  /\ handleContinue byteCompare fork_nodes fork_edges (mkState ["start"] "left" [])
     = (Alerted noPathMessage, mkState ["start"] "left" []).
Proof.
  split; [reflexivity |]. split; [reflexivity |].
  apply (informational_no_connection byteCompare fork_nodes fork_edges
           (mkState ["start"] "left" []) (staticNode "left") eq_refl eq_refl).
  intros e [<- | [<- | []]]; discriminate.
Defined.

(** The fork has a start step; the single-choice scenario has none. *)
Lemma start_validation_witness :
  Viewer scenarioQ_nodes initialState = NodeNotFound
  /\ exists t, Viewer fork_nodes initialState = Wizard t false
               /\ In t fork_nodes /\ AppNode.id t = "start".
Proof.
  split.
  - apply (proj1 (start_validation byteCompare scenarioQ_nodes)).
    intros t [<- | [<- | [<- | []]]]; discriminate.
  - apply (proj1 (proj2 (start_validation byteCompare fork_nodes))).
    exists (staticNode "start"). split; [left; reflexivity | reflexivity].
Defined.

(** The start step of the fork has two connections: the first, to [left], is taken. *)
Lemma informational_first_connection_witness :
  currentNode fork_nodes initialState = Some (staticNode "start")
  /\ NodeData.type (AppNode.data (staticNode "start")) = static
  /\ handleContinue byteCompare fork_nodes fork_edges initialState
     = (Moved, mkState ["start"] "left" []).
Proof.
  split; [reflexivity |]. split; [reflexivity |].
  apply (proj1 (informational_first_connection byteCompare fork_nodes fork_edges
                  initialState (staticNode "start")
                  [] [mkEdge "start" JS.null "right"] (mkEdge "start" JS.null "left")
                  eq_refl eq_refl eq_refl (fun e' (H : In e' []) => match H with end)
                  eq_refl)).
  exists (staticNode "left"). split; [right; left; reflexivity | reflexivity].
Defined.

(** ** Where the claims as first stated fail *)

(** On the multi-choice scenario with nothing selected, [handleContinue] takes
    the path that requires nothing and moves to [Z]. *)
Example continue_without_selection_checkbox :
  handleContinue byteCompare scenarioM_nodes scenarioM_edges (mkState [] "M" [])
  = (Moved, mkState ["M"] "Z" []).
Proof. reflexivity. Qed.

(** On a single-choice step with nothing selected, [selections[0]] is
    [undefined] and a connection without a source handle is followed. *)
Example continue_without_selection_radio :
  handleContinue byteCompare bare_nodes bare_edges (mkState [] "Q" [])
  = (Moved, mkState ["Q"] "X" []).
Proof. reflexivity. Qed.

(** C4 as first stated is false: [handleContinue] with an empty selection on a
    [radio] or [checkbox] step need not fail. *)
Lemma empty_selection_counterexample :
  ~ (forall nodes edges st n,
       currentNode nodes st = Some n ->
       NodeData.type (AppNode.data n) = radio
       \/ NodeData.type (AppNode.data n) = checkbox ->
       selections st = [] ->
       failed (fst (handleContinue byteCompare nodes edges st)) = true
       /\ snd (handleContinue byteCompare nodes edges st) = st).
Proof.
  intros H.
  destruct (H scenarioM_nodes scenarioM_edges (mkState [] "M" []) stepM
              eq_refl (or_intror eq_refl) eq_refl) as [F _].
  rewrite continue_without_selection_checkbox in F. discriminate F.
Qed.

(** After the restart from [finish], [handleBack] stays on ['start']. *)
Example back_after_restart :
  handleContinue byteCompare restart_nodes restart_edges (mkState ["start"] "finish" [])
  = (Restarted, mkState [] "start" [])
  /\ handleBack (mkState [] "start" []) = mkState [] "start" [].
Proof. split; reflexivity. Qed.

(** C5 as first stated is false: a successful advance that is a restart is not
    undone by [handleBack]. *)
Lemma back_round_trip_counterexample :
  ~ (forall nodes edges st o st',
       handleContinue byteCompare nodes edges st = (o, st') ->
       failed o = false ->
       currentNodeId (handleBack st') = currentNodeId st
       /\ selections (handleBack st') = []).
Proof.
  intros H.
  destruct (H restart_nodes restart_edges (mkState ["start"] "finish" [])
              Restarted (mkState [] "start" []) (proj1 back_after_restart) eq_refl)
    as [E _].
  discriminate E.
Qed.

(** A step whose id is the empty string is pushed on the history by a move but
    is not restored by [handleBack]: the popped id is falsy, so the history is
    shortened while the current step stays. *)
Example back_skips_empty_id :
  handleContinue byteCompare emptyId_nodes emptyId_edges (mkState ["start"] "" [])
  = (Moved, mkState ["start"; ""] "last" [])
  /\ handleBack (mkState ["start"; ""] "last" []) = mkState ["start"] "last" [].
Proof. split; reflexivity. Qed.

(** * Further laws of the multi-choice resolution *)

Lemma find_pointwise {A : Type} (f g : A -> bool) (l : list A) :
  (forall a, In a l -> f a = g a) -> find f l = find g l.
Proof.
  intros H. induction l as [| x l IH]; [reflexivity |]. cbn.
  rewrite <- (H x (or_introl eq_refl)).
  destruct (f x); [reflexivity |]. apply IH. intros a Ha. apply H. now right.
Qed.

Lemma find_app_hit {A : Type} (f : A -> bool) (pre post : list A) (x p : A) :
  f x = true -> find f (pre ++ x :: post) = Some p -> In p (pre ++ [x]).
Proof.
  intros Hx. induction pre as [| y pre IH]; cbn.
  - rewrite Hx. intros [= <-]. now left.
  - destruct (f y); [intros [= <-]; now left | intros H; right; now apply IH].
Qed.

Lemma pathMatches_same_members (sel sel' : list string) (p : LogicPath.t) :
  (forall x, In x sel <-> In x sel') -> pathMatches sel p = pathMatches sel' p.
Proof.
  intros H. unfold pathMatches, JS.every.
  induction (LogicPath.requiredOptionIds p) as [| r rs IH]; [reflexivity |].
  cbn [forallb]. rewrite IH. f_equal.
  destruct (JS.includes sel r) eqn:E, (JS.includes sel' r) eqn:E'; try reflexivity.
  - apply includes_In, H, includes_In in E. congruence.
  - apply includes_In, H, includes_In in E'. congruence.
Qed.

Section MatchingLaws.

Variable localeCompare : string -> string -> Z.

(** A tie of [comparePaths] is a tie on the size and on the label. *)
Lemma comparePaths_tie (a b : LogicPath.t) :
  comparePaths localeCompare a b = 0%Z <->
  List.length (LogicPath.requiredOptionIds a) = List.length (LogicPath.requiredOptionIds b)
  /\ localeCompare (LogicPath.label a) (LogicPath.label b) = 0%Z.
Proof.
  unfold comparePaths. cbv zeta.
  destruct (Z.eqb_spec
    (Z.of_nat (List.length (LogicPath.requiredOptionIds b))
     - Z.of_nat (List.length (LogicPath.requiredOptionIds a))) 0) as [E | E]; cbn [negb].
  - split; [intros H; split; [lia | exact H] | intros [_ H]; exact H].
  - split; [lia | intros [H _]; lia].
Qed.

Lemma else_path_resolves (paths : list LogicPath.t) (sel : list string) (e : LogicPath.t) :
  In e paths -> LogicPath.requiredOptionIds e = [] ->
  exists p, matchedPath localeCompare paths sel = Some p.
Proof.
  intros He Hreq.
  destruct (matchedPath localeCompare paths sel) as [p |] eqn:E; [now exists p |].
  exfalso. unfold matchedPath, sortedPaths in E.
  pose proof (find_none _ _ E e (proj2 (sort_In _ e paths) He)) as N.
  assert (M : pathMatches sel e = true).
  { apply pathMatches_incl. rewrite Hreq. intros x []. }
  congruence.
Qed.

(** X1.  The else-path law.  A path that requires nothing is a candidate for every
    selection, so a step that lists one always resolves some path; and when a
    path that requires nothing is the one resolved, no path with a
    requirement was a candidate. *)
Theorem else_path_law (paths : list LogicPath.t) (sel : list string) :
  ((exists e, In e paths /\ LogicPath.requiredOptionIds e = []) ->
   exists p, matchedPath localeCompare paths sel = Some p)
  /\
  (JS.Consistent localeCompare ->
   forall p, matchedPath localeCompare paths sel = Some p ->
     LogicPath.requiredOptionIds p = [] ->
     forall q, In q paths -> incl (LogicPath.requiredOptionIds q) sel ->
       LogicPath.requiredOptionIds q = []).
Proof.
  split.
  - intros [e [He Hreq]]. now apply else_path_resolves with e.
  - intros Hc p Hp Hreq q Hq Hqsel.
    destruct (matchedPath_least localeCompare paths sel q Hc Hq Hqsel)
      as [p' [Hp' [_ [_ Hleast]]]].
    rewrite Hp in Hp'. injection Hp' as <-.
    pose proof (proj1 (comparePaths_before localeCompare p q) (Hleast q Hq Hqsel)) as B.
    rewrite Hreq in B. cbn in B.
    destruct (LogicPath.requiredOptionIds q); [reflexivity | cbn in B; lia].
Qed.

(** X2.  The order in which the options were ticked does not matter: two
    selections with the same members resolve the same path and the same
    connection. *)
Theorem selection_order_irrelevant
  (edges : list Edge.t) (st : ViewerState) (n : AppNode.t) (sel sel' : list string) :
  (forall x, In x sel <-> In x sel') ->
  NodeData.type (AppNode.data n) = checkbox ->
  matchedPath localeCompare (pathsOrEmpty (AppNode.data n)) sel
  = matchedPath localeCompare (pathsOrEmpty (AppNode.data n)) sel'
  /\ nextEdge localeCompare edges (setSelections sel st) n
     = nextEdge localeCompare edges (setSelections sel' st) n.
Proof.
  intros Hsame Hty.
  assert (E : forall ps, matchedPath localeCompare ps sel = matchedPath localeCompare ps sel').
  { intros ps. unfold matchedPath. apply find_pointwise.
    intros p _. now apply pathMatches_same_members. }
  split; [apply E |].
  unfold nextEdge. rewrite Hty. cbn [selections setSelections currentNodeId].
  now rewrite E.
Qed.

(** X3.  Ticking more options never loses a candidate and never resolves a less
    specific path. *)
Theorem more_selections_more_specific
  (paths : list LogicPath.t) (sel sel' : list string) (p : LogicPath.t) :
  JS.Consistent localeCompare ->
  incl sel sel' ->
  matchedPath localeCompare paths sel = Some p ->
  pathMatches sel' p = true
  /\ exists p', matchedPath localeCompare paths sel' = Some p'
       /\ List.length (LogicPath.requiredOptionIds p)
          <= List.length (LogicPath.requiredOptionIds p').
Proof.
  intros Hc Hincl Hp. apply matchedPath_some in Hp as [Hin Hsel].
  assert (Hsel' : incl (LogicPath.requiredOptionIds p) sel').
  { intros x Hx. now apply Hincl, Hsel. }
  split; [now apply pathMatches_incl |].
  destruct (matchedPath_least localeCompare paths sel' p Hc Hin Hsel')
    as [p' [Hp' [_ [_ Hleast]]]].
  exists p'. split; [exact Hp' |].
  pose proof (proj1 (comparePaths_before localeCompare p' p) (Hleast p Hin Hsel')) as B.
  lia.
Qed.

(** X4.  Candidates that tie on the size and on the label are resolved in the order
    in which the step lists them: the path resolved is listed no later than any
    candidate it ties with. *)
Theorem ties_resolved_in_listing_order
  (earlier later : list LogicPath.t) (sel : list string) (p q : LogicPath.t) :
  JS.Consistent localeCompare ->
  matchedPath localeCompare (earlier ++ q :: later) sel = Some p ->
  incl (LogicPath.requiredOptionIds q) sel ->
  List.length (LogicPath.requiredOptionIds q) = List.length (LogicPath.requiredOptionIds p) ->
  localeCompare (LogicPath.label p) (LogicPath.label q) = 0%Z ->
  p = q \/ In p earlier.
Proof.
  intros Hc Hp Hq Hlen Hlab.
  apply (matchedPath_first_of_ties localeCompare _ _ _ Hc) in Hp.
  rewrite filter_app in Hp. cbn [filter] in Hp.
  rewrite (proj2 (comparePaths_tie p q) (conj (eq_sym Hlen) Hlab)) in Hp.
  cbn in Hp.
  apply find_app_hit in Hp; [| now apply pathMatches_incl].
  apply in_app_or in Hp as [Hp | [<- | []]]; [right | now left].
  now apply filter_In in Hp.
Qed.

(** X5.  When no two distinct candidates tie on the size and on the label, the path
    resolved does not depend on the order in which the step lists its paths. *)
Theorem resolution_independent_of_listing
  (paths paths' : list LogicPath.t) (sel : list string) :
  JS.Consistent localeCompare ->
  Permutation paths paths' ->
  (forall a b, In a paths -> In b paths ->
     incl (LogicPath.requiredOptionIds a) sel ->
     incl (LogicPath.requiredOptionIds b) sel ->
     List.length (LogicPath.requiredOptionIds a) = List.length (LogicPath.requiredOptionIds b) ->
     localeCompare (LogicPath.label a) (LogicPath.label b) = 0%Z ->
     a = b) ->
  matchedPath localeCompare paths sel = matchedPath localeCompare paths' sel.
Proof.
  intros Hc Hperm Hties.
  destruct (matchedPath localeCompare paths sel) as [p |] eqn:E.
  - pose proof (matchedPath_some localeCompare _ _ _ E) as [Hin Hsel].
    destruct (matchedPath_least localeCompare paths sel p Hc Hin Hsel)
      as [p0 [Hp0 [_ [_ Hleast]]]].
    rewrite E in Hp0. injection Hp0 as <-.
    destruct (matchedPath_least localeCompare paths' sel p Hc
                (Permutation_in _ Hperm Hin) Hsel)
      as [p' [Hp' [Hin' [Hsel' Hleast']]]].
    rewrite Hp'. f_equal.
    apply Permutation_sym in Hperm.
    pose proof (Permutation_in _ Hperm Hin') as Hin''.
    pose proof (Hleast p' Hin'' Hsel') as B1.
    pose proof (Hleast' p (Permutation_in _ (Permutation_sym Hperm) Hin) Hsel) as B2.
    unfold JS.before in B1, B2.
    pose proof (JS.cmp_antisym _ (comparePaths_consistent localeCompare Hc) p p') as Ha.
    assert (T : comparePaths localeCompare p p' = 0%Z) by lia.
    apply comparePaths_tie in T as [Tlen Tlab].
    now apply Hties.
  - symmetry. apply matchedPath_none. intros q Hq Hqsel.
    apply Permutation_sym in Hperm.
    unfold matchedPath, sortedPaths in E.
    pose proof (find_none _ _ E q
                  (proj2 (sort_In _ q paths) (Permutation_in _ Hperm Hq))) as N.
    apply pathMatches_incl in Hqsel. congruence.
Qed.

(** X6.  No fallback: when the path resolved has no connection leaving through its
    handle, [handleContinue] raises the "no valid path" alert on the unchanged
    state, whatever connections the other candidates have. *)
Theorem unwired_path_no_fallback
  (nodes : list AppNode.t) (edges : list Edge.t) (st : ViewerState) (n : AppNode.t)
  (p : LogicPath.t) :
  currentNode nodes st = Some n ->
  NodeData.type (AppNode.data n) = checkbox ->
  matchedPath localeCompare (pathsOrEmpty (AppNode.data n)) (selections st) = Some p ->
  (forall e, In e edges ->
     ~ (Edge.source e = currentNodeId st /\ Edge.sourceHandle e = JS.str (LogicPath.id p))) ->
  handleContinue localeCompare nodes edges st = (Alerted noPathMessage, st).
Proof.
  intros Hn Hty Hp Hnone.
  rewrite (handleContinue_checkbox localeCompare nodes edges st n p Hn Hty Hp).
  rewrite find_absent; [reflexivity |].
  intros e He. unfold leaves.
  destruct (String.eqb_spec (Edge.source e) (currentNodeId st)) as [Hs | Hs];
    [| reflexivity].
  cbn [andb]. destruct (JS.strictEq (Edge.sourceHandle e) (JS.str (LogicPath.id p))) eqn:E;
    [| reflexivity].
  exfalso. apply (Hnone e He). split; [exact Hs | now apply strictEq_str].
Qed.

End MatchingLaws.

(** * Further laws of the viewer's handlers *)

Lemma filter_all {A : Type} (f : A -> bool) (l : list A) :
  (forall x, In x l -> f x = true) -> filter f l = l.
Proof.
  intros H. induction l as [| x l IH]; [reflexivity |]. cbn.
  rewrite (H x (or_introl eq_refl)). f_equal. apply IH. intros y Hy. apply H. now right.
Qed.

Lemma unique_In (x : string) (l : list string) : In x (JSArray.unique l) <-> In x l.
Proof.
  induction l as [| y l IH]; cbn; [reflexivity |].
  rewrite filter_In, IH, negb_true_iff, String.eqb_neq.
  destruct (string_dec y x) as [-> | N]; intuition congruence.
Qed.

Lemma unique_NoDup (l : list string) : NoDup (JSArray.unique l).
Proof.
  induction l as [| y l IH]; cbn; constructor.
  - rewrite filter_In, negb_true_iff, String.eqb_neq. intros [_ N]. now apply N.
  - now apply NoDup_filter.
Qed.

Lemma compact_In {A : Type} (x : A) (l : list (option A)) :
  In x (JSArray.compact l) <-> In (Some x) l.
Proof.
  induction l as [| [y |] l IH]; cbn; [reflexivity | |].
  - rewrite IH. split; intros [H | H]; auto; left; congruence.
  - rewrite IH. split; [auto | intros [H | H]; [discriminate | exact H]].
Qed.

Lemma findNode_id (nodes : list AppNode.t) (i : string) (n : AppNode.t) :
  findNode nodes i = Some n -> In n nodes /\ AppNode.id n = i.
Proof.
  unfold findNode. intros H. apply find_some in H as [Hin Hid].
  split; [exact Hin | now apply String.eqb_eq].
Qed.

(** The nodes looked up for duplicate-free ids have duplicate-free ids. *)
Lemma lookup_ids_NoDup (nodes : list AppNode.t) (ids : list string) :
  NoDup ids ->
  NoDup (map AppNode.id (JSArray.compact (map (fun i => findNode nodes i) ids))).
Proof.
  induction 1 as [| i ids Hi Hnd IH]; cbn; [constructor |].
  destruct (findNode nodes i) as [n |] eqn:E; [| exact IH].
  cbn. constructor; [| exact IH].
  apply findNode_id in E as [_ <-]. intros Hin. apply Hi.
  apply in_map_iff in Hin as [m [Hm Hin]]. apply compact_In in Hin.
  apply in_map_iff in Hin as [j [Hj Hjin]]. apply findNode_id in Hj as [_ Hj].
  congruence.
Qed.

Lemma toggle_checkbox_selected (optId : string) (st : ViewerState) :
  In optId (selections (toggleSelection optId false st)) <-> ~ In optId (selections st).
Proof.
  unfold toggleSelection. cbn [selections setSelections].
  destruct (JS.includes (selections st) optId) eqn:E.
  - apply includes_In in E.
    rewrite filter_In, negb_true_iff, String.eqb_neq. intuition.
  - assert (N : ~ In optId (selections st)).
    { intros H. apply includes_In in H. congruence. }
    rewrite in_app_iff. cbn. intuition.
Qed.

Lemma toggle_checkbox_others (optId x : string) (st : ViewerState) :
  x <> optId ->
  (In x (selections (toggleSelection optId false st)) <-> In x (selections st)).
Proof.
  intros Hx. unfold toggleSelection. cbn [selections setSelections].
  destruct (JS.includes (selections st) optId).
  - rewrite filter_In, negb_true_iff, String.eqb_neq. intuition.
  - rewrite in_app_iff. cbn. intuition congruence.
Qed.

Lemma toggle_checkbox_NoDup (optId : string) (st : ViewerState) :
  NoDup (selections st) -> NoDup (selections (toggleSelection optId false st)).
Proof.
  intros Hnd. unfold toggleSelection. cbn [selections setSelections].
  destruct (JS.includes (selections st) optId) eqn:E; [now apply NoDup_filter |].
  apply NoDup_app; [exact Hnd | repeat constructor; intros [] |].
  intros a Ha [<- | []]. apply includes_In in Ha. congruence.
Qed.

Lemma toggleSelection_position (optId : string) (isRadio : bool) (st : ViewerState) :
  history (toggleSelection optId isRadio st) = history st
  /\ currentNodeId (toggleSelection optId isRadio st) = currentNodeId st.
Proof. unfold toggleSelection. destruct isRadio; split; reflexivity. Qed.

(** X7.  Ticking an option of a multi-choice step flips that option — it becomes
    selected exactly when it was not — and nothing else: every other option
    stays as it was, no id comes to be listed twice, and the history and the
    current step are untouched. *)
Theorem toggle_flips_one_option (optId : string) (st : ViewerState) :
  (In optId (selections (toggleSelection optId false st))
   <-> ~ In optId (selections st))
  /\ (forall x, x <> optId ->
        (In x (selections (toggleSelection optId false st)) <-> In x (selections st)))
  /\ (NoDup (selections st) -> NoDup (selections (toggleSelection optId false st)))
  /\ history (toggleSelection optId false st) = history st
  /\ currentNodeId (toggleSelection optId false st) = currentNodeId st.
Proof.
  split; [apply toggle_checkbox_selected |].
  split; [intros x; apply toggle_checkbox_others |].
  split; [apply toggle_checkbox_NoDup |].
  apply toggleSelection_position.
Qed.

(** X8.  Ticking the same option of a multi-choice step twice gives back the same
    set of selections, and the very same state when the option was not
    selected before; pressing the selected option of a single-choice step
    again changes nothing, so a single choice, once made, cannot be cleared. *)
Theorem toggle_twice (optId : string) (st : ViewerState) :
  (forall x, In x (selections (toggleSelection optId false (toggleSelection optId false st)))
             <-> In x (selections st))
  /\ (~ In optId (selections st) ->
      toggleSelection optId false (toggleSelection optId false st) = st)
  /\ toggleSelection optId true (toggleSelection optId true st)
     = toggleSelection optId true st
  /\ selections (toggleSelection optId true st) = [optId].
Proof.
  split; [| split; [| split; reflexivity]].
  - intros x.
    destruct (string_dec x optId) as [-> | N].
    + rewrite toggle_checkbox_selected, toggle_checkbox_selected.
      destruct (in_dec string_dec optId (selections st)); intuition.
    + now rewrite (toggle_checkbox_others optId x _ N), (toggle_checkbox_others optId x _ N).
  - intros N. unfold toggleSelection at 2.
    assert (E : JS.includes (selections st) optId = false).
    { destruct (JS.includes (selections st) optId) eqn:E; [| reflexivity].
      apply includes_In in E. contradiction. }
    rewrite E. unfold toggleSelection. cbn [selections setSelections].
    assert (E' : JS.includes (selections st ++ [optId]) optId = true).
    { apply includes_In, in_app_iff. right. now left. }
    rewrite E', filter_app. cbn [filter]. rewrite String.eqb_refl. cbn [negb].
    rewrite app_nil_r, filter_all.
    + unfold setSelections. cbn. now destruct st.
    + intros y Hy. apply negb_true_iff, String.eqb_neq. intros ->. contradiction.
Qed.

Section ViewerLaws.

Variable localeCompare : string -> string -> Z.

(** The connection that [handleContinue] resolves is a connection of the graph
    that leaves the current step. *)
Lemma nextEdge_sound (edges : list Edge.t) (st : ViewerState) (n : AppNode.t) (e : Edge.t) :
  nextEdge localeCompare edges st n = Some e ->
  In e edges /\ Edge.source e = currentNodeId st.
Proof.
  unfold nextEdge.
  destruct (NodeData.type (AppNode.data n)).
  - intros H. apply find_some in H as [Hin H]. unfold leaves in H.
    apply andb_true_iff in H as [H _]. now apply String.eqb_eq in H.
  - destruct (matchedPath localeCompare _ _); [| discriminate].
    intros H. apply find_some in H as [Hin H]. unfold leaves in H.
    apply andb_true_iff in H as [H _]. now apply String.eqb_eq in H.
  - intros H. apply find_some in H as [Hin H]. now apply String.eqb_eq in H.
  - discriminate.
Qed.

(** What a committed move consists of. *)
Lemma handleContinue_moved (nodes : list AppNode.t) (edges : list Edge.t)
  (st st' : ViewerState) :
  handleContinue localeCompare nodes edges st = (Moved, st') ->
  exists n e t,
    currentNode nodes st = Some n
    /\ nextEdge localeCompare edges st n = Some e
    /\ findNode nodes (Edge.target e) = Some t
    /\ st' = mkState (history st ++ [currentNodeId st]) (Edge.target e) [].
Proof.
  unfold handleContinue.
  destruct (currentNode nodes st) as [n |]; [| discriminate].
  destruct (NodeType_eqb (NodeData.type (AppNode.data n)) end_).
  - destruct (JS.truthyFlag _); discriminate.
  - unfold followEdge.
    destruct (nextEdge localeCompare edges st n) as [e |] eqn:E; [| discriminate].
    destruct (findNode nodes (Edge.target e)) as [t |] eqn:T; [| discriminate].
    intros [= <-]. now exists n, e, t.
Qed.

(** X9.  A control that can be pressed never does nothing: on a step that is
    found, the press is passed to [handleContinue] and ends in a move, a
    restart or an alert exactly when [canAdvance] holds, and is swallowed
    without a message exactly when it does not. *)
Theorem press_is_silent_iff_disabled
  (nodes : list AppNode.t) (edges : list Edge.t) (st : ViewerState) (n : AppNode.t) :
  currentNode nodes st = Some n ->
  (canAdvance n st = true ->
   pressContinue localeCompare nodes edges st = handleContinue localeCompare nodes edges st
   /\ fst (handleContinue localeCompare nodes edges st) <> Returned)
  /\ (canAdvance n st = false ->
      pressContinue localeCompare nodes edges st = (Returned, st)).
Proof.
  intros Hn. unfold pressContinue. rewrite Hn. split; intros Hg; rewrite Hg.
  - split; [reflexivity |]. unfold handleContinue. rewrite Hn.
    unfold canAdvance in Hg.
    destruct (NodeType_eqb (NodeData.type (AppNode.data n)) end_); cbn [negb] in Hg.
    + rewrite Hg. discriminate.
    + unfold followEdge. destruct (nextEdge localeCompare edges st n) as [e |];
        [destruct (findNode nodes (Edge.target e)) |]; discriminate.
  - reflexivity.
Qed.

(** X10.  The Back control is shown exactly when [handleBack] changes the state. *)
Theorem back_shown_iff_effective
  (nodes : list AppNode.t) (st : ViewerState) (n : AppNode.t) (shown : bool) :
  Viewer nodes st = Wizard n shown ->
  (shown = true <-> handleBack st <> st).
Proof.
  unfold Viewer. destruct (currentNode nodes st); [| discriminate].
  intros [= _ <-]. unfold handleBack.
  destruct (history st) as [| x h] eqn:E using rev_ind.
  - cbn. split; [discriminate | intros H; now contradiction H].
  - clear IHh. rewrite length_app, Nat.add_comm. cbn [List.length Nat.add Nat.eqb negb].
    rewrite pop_snoc. split; [| reflexivity]. intros _ Heq.
    assert (L : List.length (history st) = List.length h).
    { destruct (JS.truthy x); rewrite <- Heq at 1; reflexivity. }
    rewrite E, length_app in L. cbn in L. lia.
Qed.

End ViewerLaws.

(** * The history as a stack *)

Lemma handleBack_snoc (h : list string) (p : string) (st : ViewerState) :
  history st = h ++ [p] ->
  handleBack st
  = if JS.truthy p then mkState h p []
    else mkState h (currentNodeId st) (selections st).
Proof.
  intros E. unfold handleBack. rewrite E, length_app, Nat.add_comm.
  cbn [List.length Nat.add Nat.eqb]. rewrite pop_snoc.
  destruct (JS.truthy p); reflexivity.
Qed.

(** Backing out of a stack of non-empty ids, one press per id. *)
Lemma unwind_history (visited : list string) :
  Forall (fun i => i <> "") visited ->
  forall h c s,
    Nat.iter (List.length visited) handleBack (mkState (h ++ visited) c s)
    = mkState h (hd c visited) (match visited with [] => s | _ :: _ => [] end).
Proof.
  induction visited as [| p v IH] using rev_ind; intros Hne h c s;
    [cbn; now rewrite app_nil_r |].
  apply Forall_app in Hne as [Hv Hp]. inversion Hp as [| ? ? Hp' _]; subst.
  rewrite length_app, Nat.add_comm. cbn [List.length Nat.add].
  rewrite Nat.iter_succ_r.
  rewrite (handleBack_snoc (h ++ v) p) by (cbn; now rewrite app_assoc).
  rewrite (truthy_nonempty _ Hp'), (IH Hv).
  destruct v; reflexivity.
Qed.

Section HistoryLaws.

Variable localeCompare : string -> string -> Z.

Lemma forward_shape (nodes : list AppNode.t) (edges : list Edge.t)
  (k : nat) (st st' : ViewerState) :
  forward localeCompare nodes edges k st st' ->
  exists visited,
    List.length visited = k
    /\ Forall (fun i => i <> "") visited
    /\ history st' = history st ++ visited
    /\ hd (currentNodeId st') visited = currentNodeId st.
Proof.
  induction 1 as [st | k st st1 sel _ IH | k st st1 st2 _ IH Hne Hmove].
  - exists []. rewrite app_nil_r. repeat split; constructor.
  - destruct IH as [visited [Hlen [Hall [Hh Hhd]]]]. exists visited.
    repeat split; try assumption; now destruct visited.
  - destruct IH as [visited [Hlen [Hall [Hh Hhd]]]].
    apply handleContinue_moved in Hmove as [n [e [t [_ [_ [_ ->]]]]]].
    exists (visited ++ [currentNodeId st1]).
    split; [rewrite length_app; cbn; lia |].
    split; [apply Forall_app; split; [exact Hall | now constructor] |].
    cbn [history currentNodeId]. split; [now rewrite Hh, app_assoc |].
    destruct visited; [exact Hhd | exact Hhd].
Qed.

(** X11.  The history is a faithful stack: after [k] committed forward moves out of
    steps with non-empty ids (with any ticking and unticking of options on the
    way), [k] presses of Back lead to the step the moves started from, with the
    history it had then and — once at least one move was made — no
    selection. *)
Theorem moves_then_backs (nodes : list AppNode.t) (edges : list Edge.t)
  (k : nat) (st st' : ViewerState) :
  forward localeCompare nodes edges k st st' ->
  Nat.iter k handleBack st'
  = mkState (history st) (currentNodeId st)
      (match k with 0 => selections st' | S _ => [] end).
Proof.
  intros F. destruct (forward_shape nodes edges k st st' F)
    as [visited [Hlen [Hall [Hh Hhd]]]].
  subst k. destruct st' as [h' c' s']. cbn [history currentNodeId selections] in *.
  subst h'. rewrite (unwind_history visited Hall). rewrite Hhd.
  destruct visited; reflexivity.
Qed.

Lemma neighbours_In (nodes : list AppNode.t) (edges : list Edge.t) (cur : string)
  (side other : Edge.t -> string) (n : AppNode.t) :
  In n (JSArray.compact
          (map (fun i => findNode nodes i)
             (JSArray.unique
                (map other (filter (fun e => String.eqb (side e) cur) edges)))))
  <-> exists e, In e edges /\ side e = cur /\ findNode nodes (other e) = Some n.
Proof.
  rewrite compact_In, in_map_iff. split.
  - intros [i [Hi Hin]]. apply unique_In, in_map_iff in Hin as [e [<- He]].
    apply filter_In in He as [He Hs]. apply String.eqb_eq in Hs. now exists e.
  - intros [e [He [Hs Hf]]]. exists (other e). split; [exact Hf |].
    apply unique_In, in_map_iff. exists e. split; [reflexivity |].
    apply filter_In. split; [exact He | now apply String.eqb_eq].
Qed.

Lemma nextNodes_In (nodes : list AppNode.t) (edges : list Edge.t) (st : ViewerState)
  (n : AppNode.t) :
  In n (nextNodes nodes edges st)
  <-> exists e, In e edges /\ Edge.source e = currentNodeId st
                /\ findNode nodes (Edge.target e) = Some n.
Proof. apply (neighbours_In nodes edges (currentNodeId st) Edge.source Edge.target). Qed.

Lemma prevNodes_In (nodes : list AppNode.t) (edges : list Edge.t) (st : ViewerState)
  (n : AppNode.t) :
  In n (prevNodes nodes edges st)
  <-> exists e, In e edges /\ Edge.target e = currentNodeId st
                /\ findNode nodes (Edge.source e) = Some n.
Proof. apply (neighbours_In nodes edges (currentNodeId st) Edge.target Edge.source). Qed.

(** X12.  The previews.  A node is listed under "next" exactly when it is the node
    found for the target of a connection that leaves the current step, and
    under "previous" exactly when it is the node found for the source of a
    connection that enters it; neither list shows a node id twice. *)
Theorem previews_are_the_neighbours
  (nodes : list AppNode.t) (edges : list Edge.t) (st : ViewerState) :
  (forall n, In n (nextNodes nodes edges st)
             <-> exists e, In e edges /\ Edge.source e = currentNodeId st
                           /\ findNode nodes (Edge.target e) = Some n)
  /\ (forall n, In n (prevNodes nodes edges st)
                <-> exists e, In e edges /\ Edge.target e = currentNodeId st
                              /\ findNode nodes (Edge.source e) = Some n)
  /\ NoDup (map AppNode.id (nextNodes nodes edges st))
  /\ NoDup (map AppNode.id (prevNodes nodes edges st)).
Proof.
  split; [intros n; apply nextNodes_In |].
  split; [intros n; apply prevNodes_In |].
  split; apply lookup_ids_NoDup, unique_NoDup.
Qed.

(** X13.  The previews agree with the moves: the step a committed move arrives at
    was listed under "next" before the move, and the step it left is listed
    under "previous" after it. *)
Theorem move_follows_the_previews
  (nodes : list AppNode.t) (edges : list Edge.t) (st st' : ViewerState) :
  handleContinue localeCompare nodes edges st = (Moved, st') ->
  exists n t,
    currentNode nodes st = Some n
    /\ currentNode nodes st' = Some t
    /\ In t (nextNodes nodes edges st)
    /\ In n (prevNodes nodes edges st').
Proof.
  intros H. apply handleContinue_moved in H as [n [e [t [Hn [He [Ht ->]]]]]].
  apply nextEdge_sound in He as [Hin Hsrc].
  exists n, t. split; [exact Hn |]. split; [exact Ht |].
  split.
  - apply nextNodes_In. now exists e.
  - apply prevNodes_In. exists e. split; [exact Hin |]. split; [reflexivity |].
    rewrite Hsrc. exact Hn.
Qed.

(** X14.  "End of path" is truthful: on a step that is not an [end] step and shows
    no next node, [handleContinue] can only raise an alert, and the state
    stays as it is. *)
Theorem end_of_path_cannot_advance
  (nodes : list AppNode.t) (edges : list Edge.t) (st : ViewerState) (n : AppNode.t) :
  currentNode nodes st = Some n ->
  NodeData.type (AppNode.data n) <> end_ ->
  nextNodes nodes edges st = [] ->
  handleContinue localeCompare nodes edges st = (Alerted noPathMessage, st)
  \/ handleContinue localeCompare nodes edges st = (Alerted missingNodeMessage, st).
Proof.
  intros Hn Hty Hnone.
  rewrite (handleContinue_forward localeCompare nodes edges st n Hn Hty).
  unfold followEdge.
  destruct (nextEdge localeCompare edges st n) as [e |] eqn:E; [| now left].
  destruct (findNode nodes (Edge.target e)) as [t |] eqn:T; [| now right].
  exfalso. apply nextEdge_sound in E as [Hin Hsrc].
  assert (In t (nextNodes nodes edges st)).
  { apply nextNodes_In. now exists e. }
  rewrite Hnone in H. contradiction.
Qed.

End HistoryLaws.

(** * Invariants of a session *)

Lemma walk_prefix (edges : list Edge.t) (l l' : list string) :
  walk edges (l ++ l') = true -> walk edges l = true.
Proof.
  induction l as [| a l IH]; [reflexivity |].
  destruct l as [| b l]; [reflexivity |].
  change ((a :: b :: l) ++ l') with (a :: b :: (l ++ l')).
  change (b :: (l ++ l')) with ((b :: l) ++ l') in *.
  cbn [walk]. intros H. apply andb_true_iff in H as [J W].
  change (b :: l ++ l') with ((b :: l) ++ l') in W.
  rewrite J. now apply IH.
Qed.

Lemma walk_snoc (edges : list Edge.t) (l : list string) (a b : string) :
  walk edges (l ++ [a]) = true -> joined edges a b = true ->
  walk edges ((l ++ [a]) ++ [b]) = true.
Proof.
  intros W J. induction l as [| x l IH]; [cbn; now rewrite J |].
  destruct l as [| y l].
  - cbn [app walk] in *. apply andb_true_iff in W as [Jxa _]. now rewrite Jxa, J.
  - change (walk edges (x :: y :: ((l ++ [a]) ++ [b])) = true).
    change (walk edges (x :: y :: (l ++ [a])) = true) in W.
    cbn [walk] in *. apply andb_true_iff in W as [Jxy W].
    rewrite Jxy. apply IH. exact W.
Qed.

Lemma hd_error_app {A : Type} (l l' : list A) :
  l <> [] -> hd_error (l ++ l') = hd_error l.
Proof. destruct l; [congruence | reflexivity]. Qed.

Section SessionLaws.

Variable localeCompare : string -> string -> Z.
Variable nodes : list AppNode.t.
Variable edges : list Edge.t.

(** The five things a press can do. *)
Lemma click_cases (st : ViewerState) (c : Click) :
  click localeCompare nodes edges st c = st
  \/ (exists node o,
        currentNode nodes st = Some node
        /\ In o (map Option.id (optionsShown node))
        /\ click localeCompare nodes edges st c
           = toggleSelection o (NodeType_eqb (NodeData.type (AppNode.data node)) radio) st)
  \/ click localeCompare nodes edges st c = initialState
  \/ (exists n e t,
        currentNode nodes st = Some n
        /\ In e edges /\ Edge.source e = currentNodeId st
        /\ findNode nodes (Edge.target e) = Some t
        /\ click localeCompare nodes edges st c
           = mkState (history st ++ [currentNodeId st]) (Edge.target e) [])
  \/ (exists h p,
        history st = h ++ [p]
        /\ click localeCompare nodes edges st c
           = if JS.truthy p then mkState h p []
             else mkState h (currentNodeId st) (selections st)).
Proof.
  unfold click. destruct (currentNode nodes st) as [node |] eqn:Hn; [| now left].
  destruct c as [optId | |].
  - destruct (existsb _ (optionsShown node)) eqn:E; [| now left].
    right; left. exists node, optId. split; [reflexivity |]. split; [| reflexivity].
    apply existsb_exists in E as [o [Ho Hid]]. apply String.eqb_eq in Hid. subst optId.
    now apply in_map.
  - unfold pressContinue. rewrite Hn.
    destruct (canAdvance node st); [| now left].
    unfold handleContinue. rewrite Hn.
    destruct (NodeType_eqb (NodeData.type (AppNode.data node)) end_).
    + destruct (JS.truthyFlag _); [right; right; now left | now left].
    + unfold followEdge.
      destruct (nextEdge localeCompare edges st node) as [e |] eqn:E; [| now left].
      destruct (findNode nodes (Edge.target e)) as [t |] eqn:T; [| now left].
      right; right; right; left. apply nextEdge_sound in E as [Hin Hsrc].
      now exists node, e, t.
  - destruct (history st) as [| p h _] eqn:E using rev_ind; [now left |].
    right; right; right; right. exists h, p. split; [reflexivity |].
    rewrite length_app, Nat.add_comm. cbn [List.length Nat.add Nat.eqb negb].
    now apply handleBack_snoc.
Qed.

Lemma session_invariant (Inv : ViewerState -> Prop) :
  Inv initialState ->
  (forall st c, Inv st -> Inv (click localeCompare nodes edges st c)) ->
  forall clicks, Inv (session localeCompare nodes edges clicks).
Proof.
  intros H0 Hstep clicks. unfold session.
  generalize initialState, H0. induction clicks as [| c clicks IH]; intros st Hst.
  - exact Hst.
  - cbn. apply IH. now apply Hstep.
Qed.

(** X15.  Once the flow has a ['start'] step, the wizard never loses its footing:
    whatever the user presses, the current step is a node of the graph (so
    "Node not found" is never rendered) and so is every step on the history. *)
Theorem session_stays_on_the_graph (clicks : list Click) :
  (exists t, In t nodes /\ AppNode.id t = "start") ->
  (exists n, Viewer nodes (session localeCompare nodes edges clicks)
             = Wizard n (negb (Nat.eqb
                 (List.length (history (session localeCompare nodes edges clicks))) 0))
             /\ In n nodes)
  /\ Forall (fun i => exists n, In n nodes /\ AppNode.id n = i)
       (history (session localeCompare nodes edges clicks)).
Proof.
  intros Hstart.
  assert (Inv : (exists n, currentNode nodes (session localeCompare nodes edges clicks) = Some n)
                /\ Forall (fun i => exists n, findNode nodes i = Some n)
                     (history (session localeCompare nodes edges clicks))).
  { apply (session_invariant
             (fun st => (exists n, currentNode nodes st = Some n)
                        /\ Forall (fun i => exists n, findNode nodes i = Some n)
                             (history st))).
    - split; [| constructor].
      destruct (findNode_present nodes "start" Hstart) as [t [Ht _]]. now exists t.
    - intros st c [[n Hn] Hh].
      destruct (click_cases st c)
        as [-> | [[node [o [_ [_ ->]]]] | [-> | [[n' [e [t [Hn' [_ [_ [Ht ->]]]]]]] | [h [p [Hp ->]]]]]]].
      + now split; [exists n |].
      + destruct (toggleSelection_position o
                    (NodeType_eqb (NodeData.type (AppNode.data node)) radio) st)
          as [Eh Ec].
        unfold currentNode. rewrite Eh, Ec. now split; [exists n |].
      + split; [| constructor].
        destruct (findNode_present nodes "start" Hstart) as [t [Ht _]]. now exists t.
      + split; [now exists t |]. cbn [history].
        apply Forall_app. split; [exact Hh |]. constructor; [now exists n' | constructor].
      + rewrite Hp in Hh. apply Forall_app in Hh as [Hh Hlast].
        inversion Hlast as [| ? ? [m Hm] _]; subst.
        destruct (JS.truthy p); split; try exact Hh; [now exists m | now exists n]. }
  destruct Inv as [[n Hn] Hh]. split.
  - exists n. unfold Viewer. rewrite Hn. split; [reflexivity |].
    now apply findNode_id in Hn.
  - eapply Forall_impl; [| exact Hh]. intros i [m Hm]. exists m.
    now apply findNode_id in Hm.
Qed.

(** X16.  Whatever the user presses, the selections are ids of options that the
    current step offers, none listed twice; a single-choice step never holds
    more than one, and a step without choices holds none. *)
Theorem session_selections_are_options (clicks : list Click) (n : AppNode.t) :
  currentNode nodes (session localeCompare nodes edges clicks) = Some n ->
  NoDup (selections (session localeCompare nodes edges clicks))
  /\ incl (selections (session localeCompare nodes edges clicks))
       (map Option.id (optionsShown n))
  /\ (NodeData.type (AppNode.data n) = radio ->
      List.length (selections (session localeCompare nodes edges clicks)) <= 1)
  /\ (NodeData.type (AppNode.data n) = static \/ NodeData.type (AppNode.data n) = end_ ->
      selections (session localeCompare nodes edges clicks) = []).
Proof.
  intros Hn.
  assert (Inv : NoDup (selections (session localeCompare nodes edges clicks))
                /\ forall m, currentNode nodes (session localeCompare nodes edges clicks) = Some m ->
                     incl (selections (session localeCompare nodes edges clicks))
                       (map Option.id (optionsShown m))
                     /\ (NodeData.type (AppNode.data m) = radio ->
                         List.length (selections (session localeCompare nodes edges clicks)) <= 1)).
  { apply (session_invariant
             (fun st => NoDup (selections st)
                        /\ forall m, currentNode nodes st = Some m ->
                             incl (selections st) (map Option.id (optionsShown m))
                             /\ (NodeData.type (AppNode.data m) = radio ->
                                 List.length (selections st) <= 1))).
    - split; [constructor |]. intros m _. split; [intros x [] | cbn; lia].
    - intros st c [Hnd Hcur].
      assert (Hclear : forall h i,
                NoDup (selections (mkState h i []))
                /\ forall m, currentNode nodes (mkState h i []) = Some m ->
                     incl (selections (mkState h i [])) (map Option.id (optionsShown m))
                     /\ (NodeData.type (AppNode.data m) = radio ->
                         List.length (selections (mkState h i [])) <= 1)).
      { intros h i. split; [constructor |]. intros m _. split; [intros x [] | cbn; lia]. }
      destruct (click_cases st c)
        as [-> | [[node [o [Hnode [Ho ->]]]] | [-> | [[n' [e [t [_ [_ [_ [_ ->]]]]]]] | [h [p [Hp ->]]]]]]].
      + now split.
      + destruct (toggleSelection_position o
                    (NodeType_eqb (NodeData.type (AppNode.data node)) radio) st)
          as [Eh Ec].
        unfold currentNode in *. rewrite Ec.
        destruct (NodeType_eqb (NodeData.type (AppNode.data node)) radio) eqn:R.
        * cbn [toggleSelection selections setSelections].
          split; [repeat constructor; intros [] |].
          intros m Hm. rewrite Hnode in Hm. injection Hm as <-.
          split; [intros x [<- | []]; exact Ho | cbn; lia].
        * split; [now apply toggle_checkbox_NoDup |].
          intros m Hm. rewrite Hnode in Hm. injection Hm as <-.
          destruct (Hcur node Hnode) as [Hincl _].
          split; [| intros Hr; rewrite Hr in R; discriminate].
          intros x Hx. destruct (string_dec x o) as [-> | N]; [exact Ho |].
          apply Hincl. now apply (toggle_checkbox_others o x st N).
      + apply (Hclear [] "start").
      + apply Hclear.
      + destruct (JS.truthy p); [apply Hclear |]. now split. }
  destruct Inv as [Hnd Hcur]. destruct (Hcur n Hn) as [Hincl Hradio].
  split; [exact Hnd |]. split; [exact Hincl |]. split; [exact Hradio |].
  intros Hty. unfold optionsShown in Hincl.
  destruct (selections (session localeCompare nodes edges clicks)) as [| x l];
    [reflexivity |].
  exfalso. destruct Hty as [Hty | Hty]; rewrite Hty in Hincl;
    exact (Hincl x (or_introl eq_refl)).
Qed.

(** X17.  When no node of the graph has the empty string as its id, the history
    followed by the current step is always a walk through the graph that
    begins at ['start']: every step on it is joined to the next by a
    connection. *)
Theorem session_history_is_a_walk (clicks : list Click) :
  (forall t, In t nodes -> AppNode.id t <> "") ->
  hd_error (history (session localeCompare nodes edges clicks)
            ++ [currentNodeId (session localeCompare nodes edges clicks)])
  = Some "start"
  /\ walk edges (history (session localeCompare nodes edges clicks)
                 ++ [currentNodeId (session localeCompare nodes edges clicks)])
     = true.
Proof.
  intros Hids.
  assert (Inv : (hd_error (history (session localeCompare nodes edges clicks)
                           ++ [currentNodeId (session localeCompare nodes edges clicks)])
                 = Some "start"
                 /\ walk edges (history (session localeCompare nodes edges clicks)
                                ++ [currentNodeId (session localeCompare nodes edges clicks)])
                    = true)
                /\ Forall (fun i => i <> "")
                     (history (session localeCompare nodes edges clicks))).
  { apply (session_invariant
             (fun st => (hd_error (history st ++ [currentNodeId st]) = Some "start"
                         /\ walk edges (history st ++ [currentNodeId st]) = true)
                        /\ Forall (fun i => i <> "") (history st))).
    - repeat split; constructor.
    - intros st c [[Hhd Hw] Hne].
      destruct (click_cases st c)
        as [-> | [[node [o [_ [_ ->]]]] | [-> | [[n' [e [t [Hn' [He [Hsrc [_ ->]]]]]]] | [h [p [Hp ->]]]]]]].
      + now repeat split.
      + destruct (toggleSelection_position o
                    (NodeType_eqb (NodeData.type (AppNode.data node)) radio) st)
          as [Eh Ec].
        rewrite Eh, Ec. now repeat split.
      + repeat split; constructor.
      + cbn [history currentNodeId]. split; [split |].
        * rewrite hd_error_app; [exact Hhd | now destruct (history st)].
        * apply walk_snoc; [exact Hw |]. unfold joined. apply existsb_exists.
          exists e. split; [exact He |].
          now rewrite Hsrc, !String.eqb_refl.
        * apply Forall_app. split; [exact Hne |]. constructor; [| constructor].
          apply findNode_id in Hn' as [Hin Hid]. rewrite <- Hid. now apply Hids.
      + rewrite Hp in Hhd, Hw, Hne. apply Forall_app in Hne as [Hne Hlast].
        inversion Hlast as [| ? ? Hpne _]; subst.
        rewrite (truthy_nonempty _ Hpne). cbn [history currentNodeId].
        split; [split |]; [| | exact Hne].
        * rewrite hd_error_app in Hhd; [exact Hhd | now destruct h].
        * now apply walk_prefix in Hw. }
  exact (proj1 Inv).
Qed.

End SessionLaws.

(** * Laws of the editor *)

Lemma updateNode_ids (i : string) (d : Patch.t) (nds : list AppNode.t) :
  map AppNode.id (updateNode i d nds) = map AppNode.id nds.
Proof.
  unfold updateNode. rewrite map_map. apply map_ext. intros n.
  now destruct (String.eqb (AppNode.id n) i).
Qed.

Lemma findNode_updateNode_same (i : string) (d : Patch.t) (nds : list AppNode.t)
  (n : AppNode.t) :
  findNode nds i = Some n ->
  findNode (updateNode i d nds) i
  = Some (AppNode.mk (AppNode.id n) (mergeData (AppNode.data n) d)).
Proof.
  unfold findNode, updateNode. induction nds as [| m nds IH]; [discriminate |].
  cbn. destruct (String.eqb (AppNode.id m) i) eqn:E.
  - intros [= <-]. cbn. now rewrite E.
  - cbn. rewrite E. exact IH.
Qed.

Lemma findNode_updateNode_other (i j : string) (d : Patch.t) (nds : list AppNode.t) :
  j <> i -> findNode (updateNode i d nds) j = findNode nds j.
Proof.
  intros N. unfold findNode, updateNode. induction nds as [| m nds IH]; [reflexivity |].
  cbn. destruct (String.eqb (AppNode.id m) i) eqn:E.
  - cbn. apply String.eqb_eq in E. rewrite E.
    rewrite (proj2 (String.eqb_neq i j)) by congruence. exact IH.
  - destruct (String.eqb (AppNode.id m) j); [reflexivity | exact IH].
Qed.

Lemma updateNode_twice (i : string) (d1 d2 : Patch.t) (nds : list AppNode.t) :
  (forall x, mergeData (mergeData x d1) d2 = mergeData x d2) ->
  updateNode i d2 (updateNode i d1 nds) = updateNode i d2 nds.
Proof.
  intros H. unfold updateNode. rewrite map_map. apply map_ext. intros n.
  destruct (String.eqb (AppNode.id n) i) eqn:E; cbn; rewrite E; [| reflexivity].
  now rewrite H.
Qed.

(** With distinct node ids, an update that writes back what the node found
    under the id already holds changes nothing. *)
Lemma updateNode_same_data (i : string) (d : Patch.t) (nds : list AppNode.t)
  (n : AppNode.t) :
  NoDup (map AppNode.id nds) ->
  findNode nds i = Some n ->
  mergeData (AppNode.data n) d = AppNode.data n ->
  updateNode i d nds = nds.
Proof.
  intros Hnd Hn Hd. unfold updateNode, findNode in *.
  induction nds as [| m nds IH]; [reflexivity |].
  cbn in *. inversion Hnd as [| ? ? Hm Hnd']; subst.
  destruct (String.eqb (AppNode.id m) i) eqn:E.
  - injection Hn as ->. rewrite Hd. f_equal; [now destruct n |].
    apply String.eqb_eq in E. rewrite <- (map_id nds) at 2. apply map_ext_in.
    intros x Hx. destruct (String.eqb_spec (AppNode.id x) i) as [Hxi | _]; [| reflexivity].
    exfalso. apply Hm. rewrite E, <- Hxi. now apply in_map.
  - f_equal. now apply IH.
Qed.

(** X18.  [updateNode] is an update-by-key: the node found under the id afterwards
    is the node found before with the carried fields overwritten, the node
    found under any other id is the same as before, and the ids of the nodes,
    their order and their number are unchanged. *)
Theorem updateNode_lookup (i : string) (d : Patch.t) (nds : list AppNode.t) :
  (forall n, findNode nds i = Some n ->
     findNode (updateNode i d nds) i
     = Some (AppNode.mk i (mergeData (AppNode.data n) d)))
  /\ (findNode nds i = None -> updateNode i d nds = nds)
  /\ (forall j, j <> i -> findNode (updateNode i d nds) j = findNode nds j)
  /\ map AppNode.id (updateNode i d nds) = map AppNode.id nds.
Proof.
  split; [| split; [| split]].
  - intros n Hn. rewrite (findNode_updateNode_same i d nds n Hn).
    apply findNode_id in Hn as [_ ->]. reflexivity.
  - intros Hnone. unfold updateNode. rewrite <- (map_id nds) at 2.
    apply map_ext_in. intros n Hn.
    unfold findNode in Hnone. pose proof (find_none _ _ Hnone n Hn) as E. cbn in E.
    now rewrite E.
  - intros j. apply findNode_updateNode_other.
  - apply updateNode_ids.
Qed.

(** X19.  Adding an option and removing it again is a round trip: on a graph with
    distinct node ids, when the panel's node has an options array in which the
    id made from the clock is not yet used, the new option is appended last,
    and removing it (from the panel as it then shows) gives back the graph as
    it was. *)
Theorem add_then_remove_option (now : Z) (sid : string) (selectedNode : AppNode.t)
  (nds : list AppNode.t) (opts : list Option.t) :
  NoDup (map AppNode.id nds) ->
  findNode nds sid = Some selectedNode ->
  NodeData.options (AppNode.data selectedNode) = Some opts ->
  (forall o, In o opts -> Option.id o <> ("opt-" ++ decimal now)%string) ->
  exists shown,
    findNode (addOption now selectedNode nds) sid = Some shown
    /\ NodeData.options (AppNode.data shown)
       = Some (opts ++ [Option.mk ("opt-" ++ decimal now)%string "New Option"])
    /\ removeOption ("opt-" ++ decimal now)%string shown (addOption now selectedNode nds) = nds.
Proof.
  intros Hnd Hsel Hopts Hfresh.
  pose proof (findNode_id _ _ _ Hsel) as [_ Hid].
  unfold addOption. rewrite Hid. unfold optionsOrEmpty at 1. rewrite Hopts.
  eexists. split; [apply (findNode_updateNode_same sid _ nds selectedNode Hsel) |].
  split; [reflexivity |].
  unfold removeOption. cbn [AppNode.id AppNode.data]. rewrite Hid.
  unfold optionsOrEmpty. cbn [mergeData optionsPatch Patch.options NodeData.options].
  rewrite updateNode_twice by reflexivity.
  rewrite filter_app. cbn [filter]. rewrite String.eqb_refl. cbn [negb].
  rewrite app_nil_r, filter_all.
  - apply (updateNode_same_data sid _ nds selectedNode Hnd Hsel).
    destruct selectedNode as [i [l c t o ps r]]. cbn in *. now subst o.
  - intros o Ho. apply negb_true_iff, String.eqb_neq. now apply Hfresh.
Qed.

Section EditorLaws.

Variable localeCompare : string -> string -> Z.

(** X20.  A path just added is a catch-all: the new path requires nothing and is
    listed last, and from then on the step resolves some path for every
    selection. *)
Theorem added_path_is_a_catch_all (now : Z) (sid : string) (selectedNode : AppNode.t)
  (nds : list AppNode.t) :
  findNode nds sid = Some selectedNode ->
  exists shown,
    findNode (addPath now selectedNode nds) sid = Some shown
    /\ pathsOrEmpty (AppNode.data shown)
       = pathsOrEmpty (AppNode.data selectedNode)
         ++ [LogicPath.mk ("path-" ++ decimal now)%string "New Path" []]
    /\ NodeData.type (AppNode.data shown) = NodeData.type (AppNode.data selectedNode)
    /\ forall sel, exists p,
         matchedPath localeCompare (pathsOrEmpty (AppNode.data shown)) sel = Some p.
Proof.
  intros Hsel. pose proof (findNode_id _ _ _ Hsel) as [_ Hid].
  unfold addPath. rewrite Hid.
  eexists. split; [apply (findNode_updateNode_same sid _ nds selectedNode Hsel) |].
  cbn [AppNode.data mergeData pathsPatch Patch.paths Patch.type override
       NodeData.type pathsOrEmpty NodeData.paths].
  split; [reflexivity |]. split; [reflexivity |].
  intros sel.
  apply else_path_resolves with (LogicPath.mk ("path-" ++ decimal now)%string "New Path" []);
    [apply in_app_iff; right; now left | reflexivity].
Qed.

End EditorLaws.

(** X21.  The panel keeps required sets free of repetitions: when no path of the
    panel's node lists an id twice, none does after adding a path, removing a
    path, renaming a path or pressing a "Requires" box of one of its paths —
    and the press flips that option in the path: it is required afterwards
    exactly when it was not before. *)
Theorem panel_keeps_requirements_duplicate_free
  (sid : string) (selectedNode : AppNode.t) (nds : list AppNode.t) :
  findNode nds sid = Some selectedNode ->
  (forall q, In q (pathsOrEmpty (AppNode.data selectedNode)) ->
     NoDup (LogicPath.requiredOptionIds q)) ->
  (forall now shown, findNode (addPath now selectedNode nds) sid = Some shown ->
     forall q, In q (pathsOrEmpty (AppNode.data shown)) ->
       NoDup (LogicPath.requiredOptionIds q))
  /\ (forall pathId shown, findNode (removePath pathId selectedNode nds) sid = Some shown ->
        forall q, In q (pathsOrEmpty (AppNode.data shown)) ->
          NoDup (LogicPath.requiredOptionIds q))
  /\ (forall pathId label shown,
        findNode (updatePath pathId (PathPatch.mk None (Some label) None) selectedNode nds) sid
        = Some shown ->
        forall q, In q (pathsOrEmpty (AppNode.data shown)) ->
          NoDup (LogicPath.requiredOptionIds q))
  /\ (forall path opt shown,
        In path (pathsOrEmpty (AppNode.data selectedNode)) ->
        findNode (pressRequirement path opt selectedNode nds) sid = Some shown ->
        forall q, In q (pathsOrEmpty (AppNode.data shown)) ->
          NoDup (LogicPath.requiredOptionIds q)
          /\ (LogicPath.id q = LogicPath.id path ->
              (In (Option.id opt) (LogicPath.requiredOptionIds q)
               <-> ~ In (Option.id opt) (LogicPath.requiredOptionIds path)))).
Proof.
  intros Hsel Hnd. pose proof (findNode_id _ _ _ Hsel) as [_ Hid].
  split; [| split; [| split]].
  - intros now shown. unfold addPath. rewrite Hid.
    rewrite (findNode_updateNode_same sid _ nds selectedNode Hsel).
    intros [= <-] q. cbn. rewrite in_app_iff. intros [Hq | [<- | []]];
      [now apply Hnd | constructor].
  - intros pathId shown. unfold removePath. rewrite Hid.
    rewrite (findNode_updateNode_same sid _ nds selectedNode Hsel).
    intros [= <-] q. cbn. rewrite filter_In. intros [Hq _]. now apply Hnd.
  - intros pathId label shown. unfold updatePath. rewrite Hid.
    rewrite (findNode_updateNode_same sid _ nds selectedNode Hsel).
    intros [= <-] q. cbn. rewrite in_map_iff. intros [p [<- Hp]].
    destruct (String.eqb (LogicPath.id p) pathId); cbn; now apply Hnd.
  - intros path opt shown Hpath. unfold pressRequirement, onRequirementChange, updatePath.
    rewrite Hid. rewrite (findNode_updateNode_same sid _ nds selectedNode Hsel).
    intros [= <-] q. cbn [AppNode.data mergeData pathsPatch Patch.paths pathsOrEmpty NodeData.paths].
    rewrite in_map_iff. intros [p [<- Hp]].
    destruct (String.eqb_spec (LogicPath.id p) (LogicPath.id path)) as [E | E].
    + cbn [mergePath PathPatch.requiredOptionIds PathPatch.id PathPatch.label
           override LogicPath.requiredOptionIds LogicPath.id].
      pose proof (Hnd path Hpath) as Hndp.
      destruct (JS.includes (LogicPath.requiredOptionIds path) (Option.id opt)) eqn:I;
        cbn [negb].
      * apply includes_In in I. split; [now apply NoDup_filter |].
        intros _. rewrite filter_In, negb_true_iff, String.eqb_neq. intuition.
      * assert (N : ~ In (Option.id opt) (LogicPath.requiredOptionIds path)).
        { intros H. apply includes_In in H. congruence. }
        split.
        -- apply NoDup_app; [exact Hndp | repeat constructor; intros [] |].
           intros a Ha [<- | []]. now apply N.
        -- intros _. rewrite in_app_iff. cbn. intuition.
    + split; [now apply Hnd | intros E'; contradiction].
Qed.

(** X22.  Removing an option does not reach the paths: the paths of the step stay
    as they are, so a path that required the removed option still requires
    it, and no selection made of the options that remain makes that path a
    candidate again. *)
Theorem removed_option_strands_its_paths
  (optId sid : string) (selectedNode : AppNode.t) (nds : list AppNode.t) :
  findNode nds sid = Some selectedNode ->
  exists shown,
    findNode (removeOption optId selectedNode nds) sid = Some shown
    /\ NodeData.paths (AppNode.data shown) = NodeData.paths (AppNode.data selectedNode)
    /\ (forall o, In o (optionsOrEmpty (AppNode.data shown)) -> Option.id o <> optId)
    /\ forall p sel,
         In p (pathsOrEmpty (AppNode.data shown)) ->
         In optId (LogicPath.requiredOptionIds p) ->
         incl sel (map Option.id (optionsOrEmpty (AppNode.data shown))) ->
         pathMatches sel p = false.
Proof.
  intros Hsel. pose proof (findNode_id _ _ _ Hsel) as [_ Hid].
  unfold removeOption. rewrite Hid.
  eexists. split; [apply (findNode_updateNode_same sid _ nds selectedNode Hsel) |].
  cbn [AppNode.data mergeData optionsPatch Patch.paths Patch.options
       NodeData.paths NodeData.options optionsOrEmpty pathsOrEmpty].
  split; [reflexivity |].
  assert (Hgone : forall o,
            In o (filter (fun o => negb (String.eqb (Option.id o) optId))
                    (optionsOrEmpty (AppNode.data selectedNode))) ->
            Option.id o <> optId).
  { intros o Ho. apply filter_In in Ho as [_ Ho].
    now apply negb_true_iff, String.eqb_neq in Ho. }
  split; [exact Hgone |].
  intros p sel _ Hreq Hincl. apply pathMatches_not_incl. intros Hsub.
  specialize (Hincl optId (Hsub optId Hreq)).
  apply in_map_iff in Hincl as [o [Ho Hin]]. now apply (Hgone o Hin).
Qed.

(** * The further laws at work on concrete flows *)

Lemma else_path_law_witness :
  exists p, matchedPath byteCompare [P1; P2; P3] ["C"] = Some p.
Proof.
  apply (proj1 (else_path_law byteCompare [P1; P2; P3] ["C"])).
  exists P3. split; [right; right; left; reflexivity | reflexivity].
Defined.

Lemma selection_order_irrelevant_witness :
  NodeData.type (AppNode.data stepM) = checkbox
  /\ matchedPath byteCompare (pathsOrEmpty (AppNode.data stepM)) ["A"; "B"]
     = matchedPath byteCompare (pathsOrEmpty (AppNode.data stepM)) ["B"; "A"].
Proof.
  split; [reflexivity |].
  apply (proj1 (selection_order_irrelevant byteCompare scenarioM_edges
                  (mkState [] "M" []) stepM ["A"; "B"] ["B"; "A"]
                  (fun x => conj
                     (fun H : In x ["A"; "B"] =>
                        match H with
                        | or_introl E => or_intror (or_introl E)
                        | or_intror (or_introl E) => or_introl E
                        | or_intror (or_intror F) => match F with end
                        end)
                     (fun H : In x ["B"; "A"] =>
                        match H with
                        | or_introl E => or_intror (or_introl E)
                        | or_intror (or_introl E) => or_introl E
                        | or_intror (or_intror F) => match F with end
                        end))
                  eq_refl)).
Defined.

Lemma more_selections_more_specific_witness :
  JS.Consistent byteCompare
  /\ incl ["A"] ["A"; "B"]
  /\ matchedPath byteCompare [P1; P2; P3] ["A"] = Some P1
  /\ exists p', matchedPath byteCompare [P1; P2; P3] ["A"; "B"] = Some p'
       /\ 1 <= List.length (LogicPath.requiredOptionIds p').
Proof.
  split; [exact byteCompare_consistent |].
  assert (I : incl ["A"] ["A"; "B"]) by (intros x [<- | []]; left; reflexivity).
  split; [exact I |]. split; [reflexivity |].
  exact (proj2 (more_selections_more_specific byteCompare [P1; P2; P3] ["A"] ["A"; "B"] P1
                  byteCompare_consistent I eq_refl)).
Defined.

Lemma ties_resolved_in_listing_order_witness :
  JS.Consistent byteCompare
  /\ matchedPath byteCompare ([] ++ tieA :: [tieB]) ["A"; "B"] = Some tieA
  /\ matchedPath byteCompare ([tieB] ++ tieA :: []) ["A"; "B"] = Some tieB
  /\ (tieB = tieA \/ In tieB [tieB]).
Proof.
  split; [exact byteCompare_consistent |]. split; [reflexivity |]. split; [reflexivity |].
  apply (ties_resolved_in_listing_order byteCompare [tieB] [] ["A"; "B"] tieB tieA
           byteCompare_consistent eq_refl).
  - intros x [<- | []]. left; reflexivity.
  - reflexivity.
  - reflexivity.
Defined.

Lemma resolution_independent_of_listing_witness :
  JS.Consistent byteCompare
  /\ Permutation [P1; P2; P3] [P3; P2; P1]
  /\ matchedPath byteCompare [P1; P2; P3] ["A"; "B"]
     = matchedPath byteCompare [P3; P2; P1] ["A"; "B"].
Proof.
  split; [exact byteCompare_consistent |].
  assert (Hperm : Permutation [P1; P2; P3] [P3; P2; P1]).
  { apply perm_trans with [P2; P1; P3]; [apply perm_swap |].
    apply perm_trans with [P2; P3; P1]; [apply perm_skip, perm_swap | apply perm_swap]. }
  split; [exact Hperm |].
  apply (resolution_independent_of_listing byteCompare _ _ _ byteCompare_consistent Hperm).
  intros a b [<- | [<- | [<- | []]]] [<- | [<- | [<- | []]]] _ _ L _;
    try reflexivity; discriminate L.
Defined.

Lemma unwired_path_no_fallback_witness :
  currentNode scenarioM_nodes (mkState [] "M" ["A"; "B"]) = Some stepM
  /\ matchedPath byteCompare (pathsOrEmpty (AppNode.data stepM)) ["A"; "B"] = Some P2
  /\ pathMatches ["A"; "B"] P1 = true
  /\ handleContinue byteCompare scenarioM_nodes unwired_edges (mkState [] "M" ["A"; "B"])
     = (Alerted noPathMessage, mkState [] "M" ["A"; "B"]).
Proof.
  split; [reflexivity |]. split; [reflexivity |]. split; [reflexivity |].
  apply (unwired_path_no_fallback byteCompare scenarioM_nodes unwired_edges
           (mkState [] "M" ["A"; "B"]) stepM P2 eq_refl eq_refl eq_refl).
  intros e [<- | [<- | []]] [_ H]; discriminate H.
Defined.

Lemma toggle_flips_one_option_witness :
  NoDup ["A"; "B"]
  /\ selections (toggleSelection "A" false (mkState [] "M" ["A"; "B"])) = ["B"]
  /\ NoDup (selections (toggleSelection "A" false (mkState [] "M" ["A"; "B"]))).
Proof.
  assert (H : NoDup ["A"; "B"]).
  { constructor; [intros [E | []]; discriminate E |].
    constructor; [intros [] | constructor]. }
  split; [exact H |]. split; [reflexivity |].
  exact (proj1 (proj2 (proj2 (toggle_flips_one_option "A" (mkState [] "M" ["A"; "B"])))) H).
Defined.

Lemma toggle_twice_witness :
  ~ In "C" ["A"; "B"]
  /\ toggleSelection "C" false (toggleSelection "C" false (mkState [] "M" ["A"; "B"]))
     = mkState [] "M" ["A"; "B"].
Proof.
  assert (H : ~ In "C" ["A"; "B"]).
  { intros [E | [E | []]]; discriminate E. }
  split; [exact H |].
  exact (proj1 (proj2 (toggle_twice "C" (mkState [] "M" ["A"; "B"]))) H).
Defined.

Lemma press_is_silent_iff_disabled_witness :
  currentNode scenarioM_nodes (mkState [] "M" []) = Some stepM
  /\ canAdvance stepM (mkState [] "M" []) = false
  /\ pressContinue byteCompare scenarioM_nodes scenarioM_edges (mkState [] "M" [])
     = (Returned, mkState [] "M" [])
  /\ canAdvance stepM (mkState [] "M" ["C"]) = true
  /\ fst (handleContinue byteCompare scenarioM_nodes scenarioM_edges (mkState [] "M" ["C"]))
     <> Returned.
Proof.
  split; [reflexivity |]. split; [reflexivity |].
  split.
  - exact (proj2 (press_is_silent_iff_disabled byteCompare scenarioM_nodes scenarioM_edges
                    (mkState [] "M" []) stepM eq_refl) eq_refl).
  - split; [reflexivity |].
    exact (proj2 (proj1 (press_is_silent_iff_disabled byteCompare scenarioM_nodes
                           scenarioM_edges (mkState [] "M" ["C"]) stepM eq_refl)
                    eq_refl)).
Defined.

Lemma back_shown_iff_effective_witness :
  Viewer fork_nodes (mkState ["start"] "left" []) = Wizard (staticNode "left") true
  /\ handleBack (mkState ["start"] "left" []) <> mkState ["start"] "left" [].
Proof.
  split; [reflexivity |].
  exact (proj1 (back_shown_iff_effective fork_nodes (mkState ["start"] "left" [])
                  (staticNode "left") true eq_refl) eq_refl).
Defined.

Lemma moves_then_backs_witness :
  forward byteCompare loop_nodes loop_edges 2 initialState (mkState ["start"; "X"] "start" [])
  /\ Nat.iter 2 handleBack (mkState ["start"; "X"] "start" []) = initialState.
Proof.
  assert (F : forward byteCompare loop_nodes loop_edges 2 initialState
                (mkState ["start"; "X"] "start" [])).
  { apply forward_move with (st1 := mkState ["start"] "X" []);
      [| discriminate | reflexivity].
    apply forward_move with (st1 := setSelections ["A"] initialState);
      [| discriminate | reflexivity].
    apply forward_select. apply forward_stay. }
  split; [exact F |].
  exact (moves_then_backs byteCompare loop_nodes loop_edges 2 initialState _ F).
Defined.

Lemma previews_are_the_neighbours_witness :
  In (staticNode "Y") (nextNodes loop_nodes loop_edges (mkState ["start"] "X" []))
  /\ nextNodes loop_nodes loop_edges (mkState ["start"] "X" []) = [stepAsk; staticNode "Y"]
  /\ prevNodes loop_nodes loop_edges (mkState ["start"] "X" []) = [stepAsk].
Proof.
  split; [| split; reflexivity].
  apply (proj1 (previews_are_the_neighbours loop_nodes loop_edges (mkState ["start"] "X" []))).
  exists (mkEdge "X" JS.null "Y").
  split; [right; right; right; left; reflexivity | split; reflexivity].
Defined.

Lemma move_follows_the_previews_witness :
  handleContinue byteCompare loop_nodes loop_edges (mkState ["start"] "X" [])
  = (Moved, mkState ["start"; "X"] "start" [])
  /\ exists n t,
       currentNode loop_nodes (mkState ["start"] "X" []) = Some n
       /\ currentNode loop_nodes (mkState ["start"; "X"] "start" []) = Some t
       /\ In t (nextNodes loop_nodes loop_edges (mkState ["start"] "X" []))
       /\ In n (prevNodes loop_nodes loop_edges (mkState ["start"; "X"] "start" [])).
Proof.
  split; [reflexivity |].
  exact (move_follows_the_previews byteCompare loop_nodes loop_edges
           (mkState ["start"] "X" []) (mkState ["start"; "X"] "start" []) eq_refl).
Defined.

Lemma end_of_path_cannot_advance_witness :
  currentNode fork_nodes (mkState ["start"] "left" []) = Some (staticNode "left")
  /\ nextNodes fork_nodes fork_edges (mkState ["start"] "left" []) = []
  /\ (handleContinue byteCompare fork_nodes fork_edges (mkState ["start"] "left" [])
      = (Alerted noPathMessage, mkState ["start"] "left" [])
      \/ handleContinue byteCompare fork_nodes fork_edges (mkState ["start"] "left" [])
         = (Alerted missingNodeMessage, mkState ["start"] "left" [])).
Proof.
  split; [reflexivity |]. split; [reflexivity |].
  apply (end_of_path_cannot_advance byteCompare fork_nodes fork_edges
           (mkState ["start"] "left" []) (staticNode "left") eq_refl);
    [discriminate | reflexivity].
Defined.

Lemma session_stays_on_the_graph_witness :
  session byteCompare loop_nodes loop_edges loop_clicks = mkState ["start"] "X" []
  /\ exists n, Viewer loop_nodes (session byteCompare loop_nodes loop_edges loop_clicks)
               = Wizard n (negb (Nat.eqb
                   (List.length (history (session byteCompare loop_nodes loop_edges loop_clicks)))
                   0))
               /\ In n loop_nodes.
Proof.
  split; [reflexivity |].
  apply (proj1 (session_stays_on_the_graph byteCompare loop_nodes loop_edges loop_clicks
                  (ex_intro _ stepAsk (conj (or_introl eq_refl) eq_refl)))).
Defined.

Lemma session_selections_are_options_witness :
  currentNode loop_nodes
    (session byteCompare loop_nodes loop_edges [ClickOption "A"; ClickOption "B"])
  = Some stepAsk
  /\ selections (session byteCompare loop_nodes loop_edges [ClickOption "A"; ClickOption "B"])
     = ["B"]
  /\ List.length
       (selections (session byteCompare loop_nodes loop_edges [ClickOption "A"; ClickOption "B"]))
     <= 1.
Proof.
  split; [reflexivity |]. split; [reflexivity |].
  exact (proj1 (proj2 (proj2 (session_selections_are_options byteCompare loop_nodes loop_edges
                                [ClickOption "A"; ClickOption "B"] stepAsk eq_refl)))
           eq_refl).
Defined.

Lemma session_history_is_a_walk_witness :
  (forall t, In t loop_nodes -> AppNode.id t <> "")
  /\ walk loop_edges
       (history (session byteCompare loop_nodes loop_edges loop_clicks)
        ++ [currentNodeId (session byteCompare loop_nodes loop_edges loop_clicks)])
     = true.
Proof.
  assert (H : forall t, In t loop_nodes -> AppNode.id t <> "").
  { intros t [<- | [<- | [<- | []]]]; discriminate. }
  split; [exact H |].
  exact (proj2 (session_history_is_a_walk byteCompare loop_nodes loop_edges loop_clicks H)).
Defined.

Lemma updateNode_lookup_witness :
  findNode fork_nodes "left" = Some (staticNode "left")
  /\ findNode (updateNode "left" (Patch.mk (Some "Left") None None None None None) fork_nodes)
       "left"
     = Some (AppNode.mk "left" (NodeData.mk "Left" "" static None None None))
  /\ findNode (updateNode "left" (Patch.mk (Some "Left") None None None None None) fork_nodes)
       "right"
     = Some (staticNode "right").
Proof.
  split; [reflexivity |].
  destruct (updateNode_lookup "left" (Patch.mk (Some "Left") None None None None None)
              fork_nodes) as [Hsame [_ [Hother _]]].
  split.
  - exact (Hsame (staticNode "left") eq_refl).
  - rewrite (Hother "right"); [reflexivity | discriminate].
Defined.

Lemma add_then_remove_option_witness :
  NoDup (map AppNode.id scenarioQ_nodes)
  /\ findNode scenarioQ_nodes "Q" = Some stepQ
  /\ exists shown,
       findNode (addOption 1712345678901 stepQ scenarioQ_nodes) "Q" = Some shown
       /\ NodeData.options (AppNode.data shown)
          = Some [Option.mk "A" "a"; Option.mk "B" "b";
                  Option.mk "opt-1712345678901" "New Option"]
       /\ removeOption "opt-1712345678901" shown
            (addOption 1712345678901 stepQ scenarioQ_nodes)
          = scenarioQ_nodes.
Proof.
  assert (H : NoDup (map AppNode.id scenarioQ_nodes)).
  { constructor; [intros [E | [E | []]]; discriminate E |].
    constructor; [intros [E | []]; discriminate E |].
    constructor; [intros [] | constructor]. }
  split; [exact H |]. split; [reflexivity |].
  apply (add_then_remove_option 1712345678901 "Q" stepQ scenarioQ_nodes
           [Option.mk "A" "a"; Option.mk "B" "b"] H eq_refl eq_refl).
  intros o [<- | [<- | []]]; discriminate.
Defined.

Lemma added_path_is_a_catch_all_witness :
  findNode strict_nodes "M" = Some stepStrict
  /\ matchedPath byteCompare (pathsOrEmpty (AppNode.data stepStrict)) [] = None
  /\ exists shown,
       findNode (addPath 1712345678901 stepStrict strict_nodes) "M" = Some shown
       /\ exists p, matchedPath byteCompare (pathsOrEmpty (AppNode.data shown)) [] = Some p.
Proof.
  split; [reflexivity |]. split; [reflexivity |].
  destruct (added_path_is_a_catch_all byteCompare 1712345678901 "M" stepStrict
              strict_nodes eq_refl)
    as [shown [Hshown [_ [_ Hall]]]].
  exists shown. split; [exact Hshown | exact (Hall [])].
Defined.

Lemma panel_keeps_requirements_duplicate_free_witness :
  findNode scenarioM_nodes "M" = Some stepM
  /\ (forall q, In q (pathsOrEmpty (AppNode.data stepM)) ->
        NoDup (LogicPath.requiredOptionIds q))
  /\ forall shown,
       findNode (pressRequirement P1 (Option.mk "B" "b") stepM scenarioM_nodes) "M"
       = Some shown ->
       forall q, In q (pathsOrEmpty (AppNode.data shown)) ->
         NoDup (LogicPath.requiredOptionIds q).
Proof.
  assert (H : forall q, In q (pathsOrEmpty (AppNode.data stepM)) ->
                NoDup (LogicPath.requiredOptionIds q)).
  { intros q [<- | [<- | [<- | []]]].
    - constructor; [intros [] | constructor].
    - constructor; [intros [E | []]; discriminate E |].
      constructor; [intros [] | constructor].
    - constructor. }
  split; [reflexivity |]. split; [exact H |].
  intros shown Hshown q Hq.
  exact (proj1 (proj2 (proj2 (proj2
           (panel_keeps_requirements_duplicate_free "M" stepM scenarioM_nodes eq_refl H)))
           P1 (Option.mk "B" "b") shown (or_introl eq_refl) Hshown q Hq)).
Defined.

Lemma removed_option_strands_its_paths_witness :
  findNode scenarioM_nodes "M" = Some stepM
  /\ exists shown,
       findNode (removeOption "B" stepM scenarioM_nodes) "M" = Some shown
       /\ NodeData.paths (AppNode.data shown) = Some [P1; P2; P3]
       /\ pathMatches ["A"; "C"] P2 = false.
Proof.
  split; [reflexivity |].
  destruct (removed_option_strands_its_paths "B" "M" stepM scenarioM_nodes eq_refl)
    as [shown [Hshown [Hpaths [_ Hdead]]]].
  exists shown. split; [exact Hshown |]. split; [exact Hpaths |].
  apply (Hdead P2 ["A"; "C"]).
  - unfold pathsOrEmpty. rewrite Hpaths. right; left; reflexivity.
  - right; left; reflexivity.
  - assert (E : shown = AppNode.mk "M"
                  (mergeData (AppNode.data stepM)
                     (optionsPatch [Option.mk "A" "a"; Option.mk "C" "c"]))).
    { cbv in Hshown. injection Hshown as <-. reflexivity. }
    rewrite E. intros x [<- | [<- | []]]; [left | right; left]; reflexivity.
Defined.

(** * Where the two multi-choice claims as first stated fail *)

(** With [A], [B] and [C] selected and the paths [P1], [P2], [P5] all
    candidates, the path resolved is [P5], the one that requires most. *)
Example most_specific_of_three :
  matchedPath byteCompare [P1; P2; P5] ["A"; "B"; "C"] = Some P5
  /\ handleContinue byteCompare deep_nodes deep_edges (mkState [] "M" ["A"; "B"; "C"])
     = (Moved, mkState ["M"] "W" []).
Proof. split; reflexivity. Qed.

(** C1 as first stated is false: of two candidates of which one requires a
    strict subset of what the other requires, the more specific one need not be
    the path resolved — a third, still more specific candidate is. *)
Lemma subset_specificity_counterexample :
  ~ (forall nodes edges st n general specific,
       currentNode nodes st = Some n ->
       NodeData.type (AppNode.data n) = checkbox ->
       In general (pathsOrEmpty (AppNode.data n)) ->
       In specific (pathsOrEmpty (AppNode.data n)) ->
       incl (LogicPath.requiredOptionIds general) (selections st) ->
       incl (LogicPath.requiredOptionIds specific) (selections st) ->
       NoDup (LogicPath.requiredOptionIds general) ->
       incl (LogicPath.requiredOptionIds general) (LogicPath.requiredOptionIds specific) ->
       ~ incl (LogicPath.requiredOptionIds specific) (LogicPath.requiredOptionIds general) ->
       matchedPath byteCompare (pathsOrEmpty (AppNode.data n)) (selections st)
       = Some specific
       /\ handleContinue byteCompare nodes edges st
          = followEdge nodes st
              (find (leaves (currentNodeId st) (JS.str (LogicPath.id specific))) edges)).
Proof.
  intros H.
  destruct (H deep_nodes deep_edges (mkState [] "M" ["A"; "B"; "C"]) stepDeep P1 P2
              eq_refl eq_refl) as [E _].
  - left; reflexivity.
  - right; left; reflexivity.
  - intros x [<- | []]. left; reflexivity.
  - intros x [<- | [<- | []]]; [left | right; left]; reflexivity.
  - constructor; [intros [] | constructor].
  - intros x [<- | []]. left; reflexivity.
  - intros Hincl. destruct (Hincl "B" (or_intror (or_introl eq_refl))) as [F | []].
    discriminate F.
  - change (matchedPath byteCompare [P1; P2; P5] ["A"; "B"; "C"] = Some P2) in E.
    rewrite (proj1 most_specific_of_three) in E. discriminate E.
Qed.

(** With [A], [B] and [C] selected and the paths labelled [c], [b], [a] all
    candidates of the same size, the path resolved is the one labelled [a]. *)
Example least_label_of_three :
  matchedPath byteCompare [Tc; Tb; Ta] ["A"; "B"; "C"] = Some Ta
  /\ handleContinue byteCompare three_nodes three_edges (mkState [] "M" ["A"; "B"; "C"])
     = (Moved, mkState ["M"] "X" []).
Proof. split; reflexivity. Qed.

(** C2 as first stated is false: of two candidates of equal, maximal
    cardinality, the one with the smaller label need not be the path resolved
    — a third candidate of that cardinality with a still smaller label is. *)
Lemma tie_break_counterexample :
  ~ (forall nodes edges st n smaller larger,
       currentNode nodes st = Some n ->
       NodeData.type (AppNode.data n) = checkbox ->
       (forall q, In q (pathsOrEmpty (AppNode.data n)) ->
          NoDup (LogicPath.requiredOptionIds q)) ->
       In smaller (pathsOrEmpty (AppNode.data n)) ->
       In larger (pathsOrEmpty (AppNode.data n)) ->
       incl (LogicPath.requiredOptionIds smaller) (selections st) ->
       incl (LogicPath.requiredOptionIds larger) (selections st) ->
       cardinality (LogicPath.requiredOptionIds smaller)
       = cardinality (LogicPath.requiredOptionIds larger) ->
       (forall q, In q (pathsOrEmpty (AppNode.data n)) ->
          incl (LogicPath.requiredOptionIds q) (selections st) ->
          cardinality (LogicPath.requiredOptionIds q)
          <= cardinality (LogicPath.requiredOptionIds smaller)) ->
       (byteCompare (LogicPath.label smaller) (LogicPath.label larger) < 0)%Z ->
       matchedPath byteCompare (pathsOrEmpty (AppNode.data n)) (selections st)
       = Some smaller
       /\ handleContinue byteCompare nodes edges st
          = followEdge nodes st
              (find (leaves (currentNodeId st) (JS.str (LogicPath.id smaller))) edges)).
Proof.
  intros H.
  destruct (H three_nodes three_edges (mkState [] "M" ["A"; "B"; "C"]) stepThree Tb Tc
              eq_refl eq_refl) as [E _].
  - intros q [<- | [<- | [<- | []]]]; constructor; (intros [] || constructor).
  - right; left; reflexivity.
  - left; reflexivity.
  - intros x [<- | []]. right; left; reflexivity.
  - intros x [<- | []]. right; right; left; reflexivity.
  - reflexivity.
  - intros q [<- | [<- | [<- | []]]] _; cbn; lia.
  - reflexivity.
  - change (matchedPath byteCompare [Tc; Tb; Ta] ["A"; "B"; "C"] = Some Tb) in E.
    rewrite (proj1 least_label_of_three) in E. discriminate E.
Qed.

(** The order of the labels is the comparator's: an order that folds case is
    as consistent as the order of the bytes, and the two resolve different
    paths for the labels [Zeta] and [alpha]. *)
Lemma foldCompare_consistent : JS.Consistent foldCompare.
Proof.
  destruct byteCompare_consistent as [Hanti Htrans]. split.
  - intros a b. apply Hanti.
  - intros a b c. apply Htrans.
Qed.

Example label_order_follows_the_comparator :
  (byteCompare "Zeta" "alpha" < 0)%Z
  /\ (foldCompare "alpha" "Zeta" < 0)%Z
  /\ matchedPath byteCompare [PZeta; Palpha] ["A"; "B"] = Some PZeta
  /\ matchedPath foldCompare [PZeta; Palpha] ["A"; "B"] = Some Palpha.
Proof. repeat split. Qed.
